(** * The core of an ergo node: registry, identifier mint and local router

    A shallow embedding of [node/core.go] (and the error values of
    [node/types.go]).  The Go [core] struct becomes the record [core]; the
    process objects it points at live in an explicit heap, because the alias
    and process tables hold [*process] pointers and several operations mutate
    the object behind them.  Every operation is a computation in the monad
    [M]: it threads the [world] and yields no result where the Go code would
    panic on a nil pointer.  Mutexes are not modelled: each operation is
    taken as one atomic step.  [spawn] itself, which runs the behaviour and
    the monitor notification defined in other files, is not embedded; its
    registry steps are [newProcess] and [deleteProcess]. *)

From stdpp Require Import gmap strings list fin_maps.
From Stdlib Require Import ZArith Lia.

Local Open Scope Z_scope.

(** ** Machine integers *)

Definition uint64 (z : Z) : Z := z mod 2 ^ 64.
Definition uint32 (z : Z) : Z := z mod 2 ^ 32.

(** ** Identifiers (package etf) *)

(** [etf.Pid] *)
Record Pid := mkPid { PidNode : string; PidID : Z; PidCreation : Z }.

(** [etf.Ref]; the field [ID] is a [[3]uint32]. *)
Record Ref := mkRef { RefNode : string; RefCreation : Z; RefID : Z * Z * Z }.

(** [type Alias Ref] *)
Abbreviation Alias := Ref.

(** [gen.ProcessID] *)
Record ProcessID := mkProcessID { ProcessIDName : string; ProcessIDNode : string }.

#[global] Instance Pid_eq_dec : EqDecision Pid.
Proof. solve_decision. Defined.

#[global] Instance Ref_eq_dec : EqDecision Ref.
Proof. solve_decision. Defined.

#[global] Instance Ref_countable : Countable Ref.
Proof.
  refine (inj_countable'
            (fun r => (RefNode r, RefCreation r, RefID r))
            (fun t => mkRef t.1.1 t.1.2 t.2) _).
  by intros [].
Defined.

(** [etf.Term] is [interface{}]; the router never inspects a message, so a
    small first-order term language stands for it. *)
Inductive Term :=
| TermAtom (a : string)
| TermInt (z : Z)
| TermPid (p : Pid)
| TermString (s : string)
| TermPair (a b : Term).

(** ** Errors ([node/types.go]) *)

Inductive error :=
| ErrAppAlreadyLoaded
| ErrAppAlreadyStarted
| ErrAppUnknown
| ErrAppIsNotRunning
| ErrNameUnknown
| ErrNameOwner
| ErrProcessBusy
| ErrProcessUnknown
| ErrProcessIncarnation
| ErrProcessTerminated
| ErrMonitorUnknown
| ErrSenderUnknown
| ErrBehaviorUnknown
| ErrBehaviorGroupUnknown
| ErrAliasUnknown
| ErrAliasOwner
| ErrNoRoute
| ErrTaken
| ErrTimeout
| ErrFragmented
| ErrUnsupported
  (** [fmt.Errorf("WARNING! mailbox of %s is full. dropped message from %s", p.Self(), from)] *)
| ErrorfMailboxFull (self from : Pid)
  (** any other error value, made outside this package *)
| ErrorfOther (msg : string).

#[global] Instance error_eq_dec : EqDecision error.
Proof. solve_decision. Defined.

(** ** Channels *)

(** A buffered Go channel: the queued values, oldest first, and the capacity. *)
Record chan (A : Type) := mkChan { chan_buf : list A; chan_cap : nat }.
Arguments mkChan {A} _ _.
Arguments chan_buf {A} _.
Arguments chan_cap {A} _.

(** [make(chan A, n)] *)
Definition make_chan {A} (n : nat) : chan A := mkChan [] n.

(** [select { case ch <- x: ... default: ... }]: the send is taken when the
    buffer has room; on a full channel, and on a nil channel (never ready),
    the default branch runs, which is [None] here. *)
Definition chan_try_send {A} (ch : option (chan A)) (x : A) : option (chan A) :=
  match ch with
  | None => None
  | Some c =>
      if decide (length (chan_buf c) < chan_cap c)%nat
      then Some (mkChan (chan_buf c ++ [x]) (chan_cap c))
      else None
  end.

(** ** Contexts *)

(** A cancellable scope is the chain of cancel cells it depends on, its own
    first: [context.WithCancel parent] allocates a fresh cell [k] and gives
    the context [k :: parent] with the cancel function of [k].  [Err()] is
    not nil as soon as one cell of the chain has been cancelled. *)
Definition cell := nat.
Definition context := list cell.

Definition ctx_Err (done : gset cell) (k : context) : bool :=
  existsb (fun c => bool_decide (c ∈ done)) k.

(** ** Processes *)

Definition loc := nat.

(** The closure stored in [process.exit]: it captures [processContext] and
    the process pointer ([c] and [pid] are captured for the log line only). *)
Record exit_closure := mkExit { exit_processContext : context; exit_process : loc }.

(** [type process struct]: the fields [core.go] reads or writes.  The fields
    [behavior], [direct] and [reply] are only set at construction and blanked
    at clean-up, and are left out. *)
Record process := mkProcess {
  proc_self : Pid;
  proc_name : string;
  proc_env : gmap string Term;
  proc_parent : option loc;
  proc_groupLeader : option loc;
  proc_mailBox : option (chan (Pid * Term));
  proc_gracefulExit : option (chan (Pid * string));
  proc_trapExit : bool;
  proc_context : context;
  proc_kill : option cell;
  proc_exit : option exit_closure;
  proc_aliases : list Alias;
}.

Definition proc_set_aliases (al : list Alias) (p : process) : process :=
  mkProcess (proc_self p) (proc_name p) (proc_env p) (proc_parent p)
    (proc_groupLeader p) (proc_mailBox p) (proc_gracefulExit p)
    (proc_trapExit p) (proc_context p) (proc_kill p) (proc_exit p) al.

Definition proc_set_mailBox (mb : option (chan (Pid * Term))) (p : process) : process :=
  mkProcess (proc_self p) (proc_name p) (proc_env p) (proc_parent p)
    (proc_groupLeader p) mb (proc_gracefulExit p)
    (proc_trapExit p) (proc_context p) (proc_kill p) (proc_exit p) (proc_aliases p).

Definition proc_set_gracefulExit (ge : option (chan (Pid * string))) (p : process) : process :=
  mkProcess (proc_self p) (proc_name p) (proc_env p) (proc_parent p)
    (proc_groupLeader p) (proc_mailBox p) ge
    (proc_trapExit p) (proc_context p) (proc_kill p) (proc_exit p) (proc_aliases p).

Definition proc_set_trapExit (b : bool) (p : process) : process :=
  mkProcess (proc_self p) (proc_name p) (proc_env p) (proc_parent p)
    (proc_groupLeader p) (proc_mailBox p) (proc_gracefulExit p)
    b (proc_context p) (proc_kill p) (proc_exit p) (proc_aliases p).

(** [type processOptions struct] (gen.ProcessOptions and the private parent) *)
Record processOptions := mkOptions {
  opt_MailboxSize : Z;
  opt_Context : option context;
  opt_Env : gmap string Term;
  opt_GroupLeader : option loc;
  opt_parent : option loc;
}.

(** ** The network side *)

(** [ConnectionInterface], the three methods the send routes call.  What a
    peer connection answers is outside the core: each method is an oracle
    for the returned error. *)
Record ConnectionInterface := mkConnection {
  conn_Send : loc -> Pid -> Term -> option error;
  conn_SendReg : loc -> ProcessID -> Term -> option error;
  conn_SendAlias : loc -> Alias -> Term -> option error;
}.

(** [networkInternal], embedded in [core]: [GetConnection] gives a
    connection or an error. *)
Record networkInternal := mkNetwork {
  GetConnection : string -> ConnectionInterface + error;
}.

(** A call handed to a peer connection: target node, sending process,
    destination and message. *)
Inductive remote_call :=
| RemoteSend (node : string) (from : loc) (to : Pid) (m : Term)
| RemoteSendReg (node : string) (from : loc) (to : ProcessID) (m : Term)
| RemoteSendAlias (node : string) (from : loc) (to : Alias) (m : Term).

(** ** The core and the world around it *)

Definition startPID : Z := 1000.

(** [type core struct] *)
Record core := mkCore {
  core_network : networkInternal;
  core_ctx : context;
  core_stop : cell;
  core_env : gmap string Term;
  core_nextPID : Z;
  core_uniqID : Z;
  core_nodename : string;
  core_creation : Z;
  core_names : gmap string Pid;
  core_aliases : gmap Alias loc;
  core_processes : gmap Z loc;
}.

Definition core_set_nextPID (n : Z) (c : core) : core :=
  mkCore (core_network c) (core_ctx c) (core_stop c) (core_env c) n (core_uniqID c)
    (core_nodename c) (core_creation c) (core_names c) (core_aliases c) (core_processes c).

Definition core_set_uniqID (n : Z) (c : core) : core :=
  mkCore (core_network c) (core_ctx c) (core_stop c) (core_env c) (core_nextPID c) n
    (core_nodename c) (core_creation c) (core_names c) (core_aliases c) (core_processes c).

Definition core_set_names (m : gmap string Pid) (c : core) : core :=
  mkCore (core_network c) (core_ctx c) (core_stop c) (core_env c) (core_nextPID c)
    (core_uniqID c) (core_nodename c) (core_creation c) m (core_aliases c) (core_processes c).

Definition core_set_aliases (m : gmap Alias loc) (c : core) : core :=
  mkCore (core_network c) (core_ctx c) (core_stop c) (core_env c) (core_nextPID c)
    (core_uniqID c) (core_nodename c) (core_creation c) (core_names c) m (core_processes c).

Definition core_set_processes (m : gmap Z loc) (c : core) : core :=
  mkCore (core_network c) (core_ctx c) (core_stop c) (core_env c) (core_nextPID c)
    (core_uniqID c) (core_nodename c) (core_creation c) (core_names c) (core_aliases c) m.

(** The node together with what its pointers and handles refer to: the heap
    of process objects, the cancelled cells, the calls accepted by peer
    connections so far, and the next free cell and location. *)
Record world := mkWorld {
  w_core : core;
  w_heap : gmap loc process;
  w_done : gset cell;
  w_sent : list remote_call;
  w_next_cell : cell;
  w_next_loc : loc;
}.

Definition w_set_core (c : core) (w : world) : world :=
  mkWorld c (w_heap w) (w_done w) (w_sent w) (w_next_cell w) (w_next_loc w).

Definition w_set_heap (h : gmap loc process) (w : world) : world :=
  mkWorld (w_core w) h (w_done w) (w_sent w) (w_next_cell w) (w_next_loc w).

Definition w_set_done (d : gset cell) (w : world) : world :=
  mkWorld (w_core w) (w_heap w) d (w_sent w) (w_next_cell w) (w_next_loc w).

Definition w_set_sent (s : list remote_call) (w : world) : world :=
  mkWorld (w_core w) (w_heap w) (w_done w) s (w_next_cell w) (w_next_loc w).

(** ** The monad of operations *)

Definition M (A : Type) : Type := world -> option (A * world).

Definition ret {A} (a : A) : M A := fun w => Some (a, w).

Definition bind {A B} (m : M A) (k : A -> M B) : M B :=
  fun w => match m w with
           | Some (a, w') => k a w'
           | None => None
           end.

Declare Scope go_scope.
Delimit Scope go_scope with go.
Notation "x <- m ;; k" := (bind m (fun x => k))
  (at level 100, m at next level, right associativity) : go_scope.
Notation "m ;;; k" := (bind m (fun _ => k))
  (at level 100, right associativity) : go_scope.
Local Open Scope go_scope.

Definition get_core : M core := fun w => Some (w_core w, w).
Definition mod_core (f : core -> core) : M unit :=
  fun w => Some (tt, w_set_core (f (w_core w)) w).
Definition get_done : M (gset cell) := fun w => Some (w_done w, w).

(** Reading through a [*process]; a pointer to no object is nil. *)
Definition deref (l : loc) : M process :=
  fun w => match w_heap w !! l with
           | Some p => Some (p, w)
           | None => None
           end.

Definition store (l : loc) (p : process) : M unit :=
  fun w => Some (tt, w_set_heap (<[l := p]> (w_heap w)) w).

(** [&process{...}] *)
Definition alloc (p : process) : M loc :=
  fun w => Some (w_next_loc w,
                 mkWorld (w_core w) (<[w_next_loc w := p]> (w_heap w)) (w_done w)
                   (w_sent w) (w_next_cell w) (S (w_next_loc w))).

(** [context.WithCancel(parent)]: the child context and its cancel cell. *)
Definition WithCancel (parent : context) : M (context * cell) :=
  fun w => Some ((w_next_cell w :: parent, w_next_cell w),
                 mkWorld (w_core w) (w_heap w) (w_done w) (w_sent w)
                   (S (w_next_cell w)) (w_next_loc w)).

(** Calling a cancel function. *)
Definition cancel (k : cell) : M unit :=
  fun w => Some (tt, w_set_done ({[k]} ∪ w_done w) w).

(** Calling a func value that may be nil. *)
Definition call_kill (k : option cell) : M unit :=
  match k with
  | Some c => cancel c
  | None => fun _ => None
  end.

Definition log_remote (r : remote_call) : M unit :=
  fun w => Some (tt, w_set_sent (w_sent w ++ [r]) w).

(** ** Identifier mint *)

(** [func (c *core) newPID() etf.Pid] *)
Definition newPID : M Pid :=
  c <- get_core ;;
  let i := uint64 (core_nextPID c + 1) in
  mod_core (core_set_nextPID i) ;;;
  ret (mkPid (core_nodename c) i (core_creation c)).

(** [func (c *core) MakeRef() (ref etf.Ref)] *)
Definition MakeRef : M Ref :=
  c <- get_core ;;
  let nt := uint64 (core_uniqID c + 1) in
  mod_core (core_set_uniqID nt) ;;;
  ret (mkRef (core_nodename c) (core_creation c)
         (uint32 (Z.land (uint64 nt) (Z.shiftl 2 17 - 1)),
          uint32 (Z.shiftr (uint64 nt) 46),
          0)).

(** [func (c *core) newAlias(p *process) (etf.Alias, error)] *)
Definition newAlias (p : loc) : M (Alias * option error) :=
  pr <- deref p ;;
  c <- get_core ;;
  match core_processes c !! PidID (proc_self pr) with
  | None => ret (mkRef "" 0 (0, 0, 0), Some ErrProcessUnknown)
  | Some _ =>
      alias <- MakeRef ;;
      mod_core (fun c => core_set_aliases (<[alias := p]> (core_aliases c)) c) ;;;
      pr <- deref p ;;
      store p (proc_set_aliases (proc_aliases pr ++ [alias]) pr) ;;;
      ret (alias, None)
  end.

(** The loop of [deleteAlias] over [p.aliases]: the first index holding
    [alias], if any. *)
Fixpoint alias_index (alias : Alias) (l : list Alias) : option nat :=
  match l with
  | [] => None
  | a :: l' => if decide (alias = a) then Some 0%nat else S <$> alias_index alias l'
  end.

(** [p.aliases[i] = p.aliases[0]; p.aliases = p.aliases[1:]] *)
Definition alias_remove_at (i : nat) (l : list Alias) : list Alias :=
  match l with
  | [] => []
  | a0 :: _ => drop 1 (<[i := a0]> l)
  end.

(** [func (c *core) deleteAlias(owner *process, alias etf.Alias) error] *)
Definition deleteAlias (owner : loc) (alias : Alias) : M (option error) :=
  ow <- deref owner ;;
  c <- get_core ;;
  match core_aliases c !! alias with
  | None => ret (Some ErrAliasUnknown)
  | Some p =>
      match core_processes c !! PidID (proc_self ow) with
      | None => ret (Some ErrProcessUnknown)
      | Some _ =>
          pp <- deref p ;;
          if decide (proc_self pp = proc_self ow) then
            match alias_index alias (proc_aliases pp) with
            | Some i =>
                (* remove it from the global alias list *)
                mod_core (fun c => core_set_aliases (delete alias (core_aliases c)) c) ;;;
                (* remove it from the process alias list *)
                store p (proc_set_aliases (alias_remove_at i (proc_aliases pp)) pp) ;;;
                ret None
            | None =>
                (* shouldn't reach this code. seems we got a bug *)
                mod_core (fun c => core_set_aliases (delete alias (core_aliases c)) c) ;;;
                ret (Some ErrAliasUnknown)
            end
          else ret (Some ErrAliasOwner)
      end
  end.

(** ** Names *)

(** [func (c *core) registerName(name string, pid etf.Pid) error] *)
Definition registerName (name : string) (pid : Pid) : M (option error) :=
  c <- get_core ;;
  match core_names c !! name with
  | Some _ => ret (Some ErrTaken)
  | None =>
      mod_core (fun c => core_set_names (<[name := pid]> (core_names c)) c) ;;;
      ret None
  end.

(** [func (c *core) unregisterName(name string) error] *)
Definition unregisterName (name : string) : M (option error) :=
  c <- get_core ;;
  match core_names c !! name with
  | Some _ =>
      mod_core (fun c => core_set_names (delete name (core_names c)) c) ;;;
      ret None
  | None => ret (Some ErrNameUnknown)
  end.

(** ** Spawning and reaping *)

Definition proc_set_exit (e : option exit_closure) (p : process) : process :=
  mkProcess (proc_self p) (proc_name p) (proc_env p) (proc_parent p)
    (proc_groupLeader p) (proc_mailBox p) (proc_gracefulExit p)
    (proc_trapExit p) (proc_context p) (proc_kill p) e (proc_aliases p).

(** Modelled from the spec: [DefaultProcessMailboxSize] is declared outside
    [core.go] and [types.go]; the spawn sequence of the spec gives the
    effective mailbox capacity as "default 100; override from opts". *)
Definition DefaultProcessMailboxSize : nat := 100.

(** The closure assigned to [process.exit] in [newProcess]:
    [func(from etf.Pid, reason string) error]. *)
Definition process_exit (cl : exit_closure) (from : Pid) (reason : string) : M (option error) :=
  d <- get_done ;;
  if ctx_Err d (exit_processContext cl) then
    (* process is already died *)
    ret (Some ErrProcessUnknown)
  else
    p <- deref (exit_process cl) ;;
    match chan_try_send (proc_gracefulExit p) (from, reason) with
    | None => ret (Some ErrProcessBusy)
    | Some ch =>
        store (exit_process cl) (proc_set_gracefulExit (Some ch) p) ;;;
        p <- deref (exit_process cl) ;;
        (if proc_trapExit p then ret tt else call_kill (proc_kill p)) ;;;
        ret None
    end.

(** Calling the func value of the field: [p.exit(from, reason)]. *)
Definition call_exit (p : loc) (from : Pid) (reason : string) : M (option error) :=
  pr <- deref p ;;
  match proc_exit pr with
  | Some cl => process_exit cl from reason
  | None => fun _ => None
  end.

(** [func (c *core) newProcess(name string, behavior gen.ProcessBehavior,
    opts processOptions)], returning the new process or an error *)
Definition newProcess (name : string) (opts : processOptions) : M (option loc * option error) :=
  let mailboxSize :=
    if decide (0 < opt_MailboxSize opts) then Z.to_nat (opt_MailboxSize opts)
    else DefaultProcessMailboxSize in
  c <- get_core ;;
  let parentContext := core_ctx c in
  ck <- WithCancel parentContext ;;
  let kill := ck.2 in
  processContext <- match opt_Context opts with
                    | Some uc => ck' <- WithCancel uc ;; ret ck'.1
                    | None => ret ck.1
                    end ;;
  pid <- newPID ;;
  (* the node environment, overlaid with the custom one *)
  let env := opt_Env opts ∪ core_env c in
  process <- alloc (mkProcess pid name env (opt_parent opts) (opt_GroupLeader opts)
                      (Some (make_chan mailboxSize)) (Some (make_chan mailboxSize))
                      false processContext (Some kill) None []) ;;
  pr <- deref process ;;
  store process (proc_set_exit (Some (mkExit processContext process)) pr) ;;;
  c <- get_core ;;
  if decide (name ≠ "" ∧ is_Some (core_names c !! name)) then
    ret (None, Some ErrTaken)
  else
    (if decide (name ≠ "")
     then mod_core (fun c => core_set_names (<[name := pid]> (core_names c)) c)
     else ret tt) ;;;
    mod_core (fun c => core_set_processes (<[PidID pid := process]> (core_processes c)) c) ;;;
    ret (Some process, None).

(** [for name, pid := range c.names { if p.self == pid { delete(c.names, name) } }] *)
Definition delete_names_of (self : Pid) (names : gmap string Pid) : gmap string Pid :=
  map_fold (fun name pid acc => if decide (self = pid) then delete name acc else acc)
    names names.

(** [for alias := range c.aliases { delete(c.aliases, alias) }] *)
Definition delete_aliases_loop (aliases : gmap Alias loc) : gmap Alias loc :=
  map_fold (fun alias _ acc => delete alias acc) aliases aliases.

(** [func (c *core) deleteProcess(pid etf.Pid)] *)
Definition deleteProcess (pid : Pid) : M unit :=
  c <- get_core ;;
  match core_processes c !! PidID pid with
  | None => ret tt
  | Some p =>
      pr <- deref p ;;
      mod_core (fun c => core_set_processes (delete (PidID pid) (core_processes c)) c) ;;;
      (if decide (proc_name pr ≠ "")
       then mod_core (fun c => core_set_names (delete (proc_name pr) (core_names c)) c)
       else ret tt) ;;;
      (* delete names registered with this pid *)
      mod_core (fun c => core_set_names (delete_names_of (proc_self pr) (core_names c)) c) ;;;
      mod_core (fun c => core_set_aliases (delete_aliases_loop (core_aliases c)) c)
  end.

(** ** Lookups *)

(** Modelled from the spec: the method [process.IsAlive] is defined in
    process.go, which is not among the sources.  The spec: "Lookups return
    nil/absent for processes whose context has been cancelled", so a process
    is alive while [Err()] of its context is nil. *)
Definition IsAlive (p : loc) : M bool :=
  pr <- deref p ;;
  d <- get_done ;;
  ret (negb (ctx_Err d (proc_context pr))).

(** [func (c *core) ProcessByPid(pid etf.Pid) gen.Process] *)
Definition ProcessByPid (pid : Pid) : M (option loc) :=
  c <- get_core ;;
  match core_processes c !! PidID pid with
  | Some p => alive <- IsAlive p ;; if alive then ret (Some p) else ret None
  | None => ret None
  end.

(** [func (c *core) ProcessByAlias(alias etf.Alias) gen.Process] *)
Definition ProcessByAlias (alias : Alias) : M (option loc) :=
  c <- get_core ;;
  match core_aliases c !! alias with
  | Some p => alive <- IsAlive p ;; if alive then ret (Some p) else ret None
  | None => ret None
  end.

(** [func (c *core) ProcessByName(name string) gen.Process] *)
Definition ProcessByName (name : string) : M (option loc) :=
  c <- get_core ;;
  if decide (name ≠ "") then
    match core_names c !! name with
    | Some p => ProcessByPid p
    | None => ret None
    end
  else ProcessByPid (mkPid "" 0 0).

(** [func (c *core) IsAlias(alias etf.Alias) bool] *)
Definition IsAlias (alias : Alias) : M bool :=
  c <- get_core ;;
  ret (bool_decide (is_Some (core_aliases c !! alias))).

(** ** The send routes *)

(** [func (c *core) RouteSend(from etf.Pid, to etf.Pid, message etf.Term) error].
    The method [p.Self()] of the warning is taken to read [p.self]. *)
Definition RouteSend (from to : Pid) (message : Term) : M (option error) :=
  c <- get_core ;;
  (* do not allow to send from the alien node *)
  if decide (PidNode from ≠ core_nodename c) then ret (Some ErrSenderUnknown)
  else if decide (PidNode to = core_nodename c) then
    if decide (PidCreation to ≠ core_creation c) then
      (* message is addressed to the previous incarnation of this PID *)
      ret (Some ErrProcessIncarnation)
    else
      (* local route *)
      match core_processes c !! PidID to with
      | None => ret (Some ErrProcessUnknown)
      | Some p =>
          pr <- deref p ;;
          match chan_try_send (proc_mailBox pr) (from, message) with
          | Some mb => store p (proc_set_mailBox (Some mb) pr) ;;; ret None
          | None => ret (Some (ErrorfMailboxFull (proc_self pr) from))
          end
      end
  else
    (* sending to remote node *)
    match core_processes c !! PidID from with
    | None => ret (Some ErrSenderUnknown)
    | Some p_from =>
        match GetConnection (core_network c) (PidNode to) with
        | inr err => ret (Some err)
        | inl connection =>
            log_remote (RemoteSend (PidNode to) p_from to message) ;;;
            ret (conn_Send connection p_from to message)
        end
    end.

(** [func (c *core) RouteSendReg(from etf.Pid, to gen.ProcessID, message etf.Term) error] *)
Definition RouteSendReg (from : Pid) (to : ProcessID) (message : Term) : M (option error) :=
  c <- get_core ;;
  if decide (PidNode from ≠ core_nodename c) then ret (Some ErrSenderUnknown)
  else if decide (ProcessIDNode to = core_nodename c) then
    (* local route *)
    match core_names c !! ProcessIDName to with
    | None => ret (Some ErrProcessUnknown)
    | Some pid => RouteSend from pid message
    end
  else
    (* send to remote node *)
    match core_processes c !! PidID from with
    | None => ret (Some ErrSenderUnknown)
    | Some p_from =>
        match GetConnection (core_network c) (ProcessIDNode to) with
        | inr err => ret (Some err)
        | inl connection =>
            log_remote (RemoteSendReg (ProcessIDNode to) p_from to message) ;;;
            ret (conn_SendReg connection p_from to message)
        end
    end.

(** [func (c *core) RouteSendAlias(from etf.Pid, to etf.Alias, message etf.Term) error] *)
Definition RouteSendAlias (from : Pid) (to : Alias) (message : Term) : M (option error) :=
  c <- get_core ;;
  if decide (PidNode from ≠ core_nodename c) then ret (Some ErrSenderUnknown)
  else if decide (RefNode to = core_nodename c) then
    (* local route by alias *)
    match core_aliases c !! to with
    | None => ret (Some ErrProcessUnknown)
    | Some process =>
        pr <- deref process ;;
        RouteSend from (proc_self pr) message
    end
  else
    (* send to remote node *)
    match core_processes c !! PidID from with
    | None => ret (Some ErrSenderUnknown)
    | Some p_from =>
        match GetConnection (core_network c) (RefNode to) with
        | inr err => ret (Some err)
        | inl connection =>
            log_remote (RemoteSendAlias (RefNode to) p_from to message) ;;;
            ret (conn_SendAlias connection p_from to message)
        end
    end.

(** ** Start of the node *)

(** [func newCore(ctx context.Context, nodename string, options Options)
    (coreInternal, error)].  Of [options] the core keeps [Creation]; [now] is
    the reading [time.Now().UnixNano()] (an int64), [newNetwork] what
    starting the network answers for the core's context, [done] the cells
    already cancelled and [next_cell] the first free one.  The monitor holds
    no state the registry reads and is left out. *)
Definition newCore (ctx : context) (nodename : string) (Creation : Z) (now : Z)
    (newNetwork : context -> networkInternal + error)
    (done : gset cell) (next_cell : cell) : world + error :=
  let corestop := next_cell in
  let corectx := corestop :: ctx in
  match newNetwork corectx with
  | inr err => inr err
  | inl network =>
      inl (mkWorld
             (mkCore network corectx corestop ∅ startPID (uint64 now)
                nodename Creation ∅ ∅ ∅)
             ∅ done [] (S next_cell) 0%nat)
  end.

(** ** Registry invariant *)

(** Every entry of the alias table points at a process object that lists the
    alias: [newAlias] inserts into both, [deleteAlias] removes from both. *)
Definition aliases_listed (w : world) : Prop :=
  map_Forall (fun (a : Alias) (l : loc) => a ∈ from_option proc_aliases [] (w_heap w !! l))
    (core_aliases (w_core w)).

#[global] Instance aliases_listed_dec (w : world) : Decision (aliases_listed w).
Proof. unfold aliases_listed. apply _. Defined.

(** Allocated process objects lie below the next free location. *)
Definition heap_bounded (w : world) : Prop :=
  map_Forall (fun (l : loc) (_ : process) => (l < w_next_loc w)%nat) (w_heap w).

Definition registry_inv (w : world) : Prop := aliases_listed w ∧ heap_bounded w.

(** ** A concrete node, for the scenarios below *)

(** The world an operation leaves behind (the unchanged one on a panic). *)
Definition after {A} (m : M A) (w : world) : world :=
  match m w with
  | Some (_, w') => w'
  | None => w
  end.

(** A peer connection that accepts every call, and a network that reaches
    the node ["peer@host"] only. *)
Definition ex_conn : ConnectionInterface :=
  mkConnection (fun _ _ _ => None) (fun _ _ _ => None) (fun _ _ _ => None).

Definition ex_net : networkInternal :=
  mkNetwork (fun n => if decide (n = "peer@host") then inl ex_conn else inr ErrNoRoute).

Definition ex_opts : processOptions := mkOptions 0 None ∅ None None.

(** A one-slot mailbox. *)
Definition ex_opts1 : processOptions := mkOptions 1 None ∅ None None.

(** The node ["node@host"] with creation 7, just started. *)
Definition ex_node : world :=
  match newCore [] "node@host" 7 1700000000000000000 (fun _ => inl ex_net) ∅ 0%nat with
  | inl w => w
  | inr _ => mkWorld (mkCore ex_net [] 0%nat ∅ 0 0 "" 0 ∅ ∅ ∅) ∅ ∅ [] 0%nat 0%nat
  end.

(** The pids [newPID] hands out first, and the locations of their objects. *)
Definition ex_pidP : Pid := mkPid "node@host" 1001 7.
Definition ex_pidQ : Pid := mkPid "node@host" 1002 7.
Definition ex_locP : loc := 0%nat.
Definition ex_locQ : loc := 1%nat.

(** Two processes: P registered as ["svc"], and Q with a one-slot mailbox. *)
Definition ex_two : world :=
  after (newProcess "" ex_opts1) (after (newProcess "svc" ex_opts) ex_node).

(** The alias [newAlias] mints first on [ex_node]. *)
Definition ex_alias : Alias := mkRef "node@host" 7 (131073, 24158, 0).

(** Q owns one alias. *)
Definition ex_two_alias : world := after (newAlias ex_locQ) ex_two.

(** Then P is reaped. *)
Definition ex_P_reaped : world := after (deleteProcess ex_pidP) ex_two_alias.

(** P owns an alias and has been sent an exit signal: its context is
    cancelled, and it is still in every table. *)
Definition ex_P_dead : world :=
  after (call_exit ex_locP ex_pidQ "boom") (after (newAlias ex_locP) ex_two).

(** Q's one-slot mailbox holds a message from P. *)
Definition ex_Q_full : world := after (RouteSend ex_pidP ex_pidQ (TermInt 1)) ex_two.

(** ** The rest of the core *)

(** [func (c *core) coreNodeName() string] *)
Definition coreNodeName : M string :=
  c <- get_core ;; ret (core_nodename c).

(** [func (c *core) coreIsAlive() bool]: [c.ctx.Err() == nil] *)
Definition coreIsAlive : M bool :=
  c <- get_core ;;
  d <- get_done ;;
  ret (negb (ctx_Err d (core_ctx c))).

(** [func (c *core) coreStop()]: [c.stop()] cancels the core's context;
    [c.stopNetwork()] is a method of the network object, defined outside the
    sources, and is the parameter [stopNetwork]. *)
Definition coreStop (stopNetwork : M unit) : M unit :=
  c <- get_core ;;
  cancel (core_stop c) ;;;
  stopNetwork.

(** [func (c *core) coreUptime() int64], with [now] the reading
    [time.Now().Unix()]. *)
Definition coreUptime (now : Z) : M Z :=
  c <- get_core ;; ret (now - core_creation c).

(** [func (c *core) ProcessList() []gen.Process]: the objects of the process
    table, in the order the map gives them (Go leaves it open). *)
Definition ProcessList : M (list loc) :=
  c <- get_core ;;
  ret (map_to_list (core_processes c)).*2.

(** Process ids in use lie above [startPID] and up to the counter. *)
Definition pids_bounded (w : world) : Prop :=
  startPID <= core_nextPID (w_core w)
  ∧ map_Forall (fun (id : Z) (_ : loc) => startPID < id <= core_nextPID (w_core w))
      (core_processes (w_core w)).

(** ** Registered behaviors *)

(** [gen.RegisteredBehavior]: the behavior is an interface value (a handle,
    or nil), the data an [interface{}]. *)
Record gen_RegisteredBehavior := mkRegistered {
  rb_Behavior : option nat;
  rb_Data : option Term;
}.

(** The four methods below read and write the field [c.behaviors] alone
    (and [c.nodename] for the log line); the table is threaded on its own. *)
Abbreviation behaviors := (gmap string (gmap string gen_RegisteredBehavior)).

(** [func (c *core) RegisterBehavior(group, name string,
    behavior gen.ProcessBehavior, data interface{}) error] *)
Definition RegisterBehavior (group name : string) (behavior : option nat)
    (data : option Term) (bs : behaviors) : behaviors * option error :=
  let gb :=
    match bs !! group with
    | Some groupBehaviors => (groupBehaviors, bs)
    | None => (∅, <[group := ∅]> bs)
    end in
  match gb.1 !! name with
  | Some _ => (gb.2, Some ErrTaken)
  | None => (<[group := <[name := mkRegistered behavior data]> gb.1]> gb.2, None)
  end.

(** [func (c *core) RegisteredBehavior(group, name string)
    (gen.RegisteredBehavior, error)] *)
Definition RegisteredBehavior (group name : string) (bs : behaviors)
    : gen_RegisteredBehavior * option error :=
  match bs !! group with
  | None => (mkRegistered None None, Some ErrBehaviorGroupUnknown)
  | Some groupBehaviors =>
      match groupBehaviors !! name with
      | None => (mkRegistered None None, Some ErrBehaviorUnknown)
      | Some rb => (rb, None)
      end
  end.

(** [func (c *core) RegisteredBehaviorGroup(group string) []gen.RegisteredBehavior] *)
Definition RegisteredBehaviorGroup (group : string) (bs : behaviors)
    : list gen_RegisteredBehavior :=
  match bs !! group with
  | None => []
  | Some groupBehaviors => (map_to_list groupBehaviors).*2
  end.

(** [func (c *core) UnregisterBehavior(group, name string) error] *)
Definition UnregisterBehavior (group name : string) (bs : behaviors)
    : behaviors * option error :=
  match bs !! group with
  | None => (bs, Some ErrBehaviorUnknown)
  | Some groupBehaviors =>
      let groupBehaviors' := delete name groupBehaviors in
      (* remove group if its empty *)
      if decide (size groupBehaviors' = 0%nat)
      then (delete group bs, None)
      else (<[group := groupBehaviors']> bs, None)
  end.

(** No group of the table is empty. *)
Definition no_empty_group (bs : behaviors) : Prop :=
  map_Forall (fun (_ : string) (g : gmap string gen_RegisteredBehavior) => g ≠ ∅) bs.

(** ** The EPMD resolver (package dist) *)

Definition uint16 (z : Z) : Z := z mod 2 ^ 16.
Definition byte (z : Z) : Z := z mod 2 ^ 8.

(** The bytes of a Go string. *)
Definition bytes_of_string (s : string) : list Z :=
  (fun a => Z.of_N (Ascii.N_of_ascii a)) <$> String.list_ascii_of_string s.

(** [copy(dst, src)]: the first [min(len(dst), len(src))] bytes of [src]
    overwrite the front of [dst]. *)
Definition copy_into (dst src : list Z) : list Z :=
  take (length dst) src ++ drop (length src) dst.

(** [binary.BigEndian.PutUint16(b, v)] on the two-byte slice [b[i:i+2]]:
    [b[0] = byte(v >> 8); b[1] = byte(v)]. *)
Definition PutUint16_at (i : nat) (v : Z) (b : list Z) : list Z :=
  <[S i := byte v]> (<[i := byte (Z.shiftr v 8)]> b).

(** [binary.BigEndian.Uint16(b)]: [uint16(b[1]) | uint16(b[0])<<8] *)
Definition Uint16_of (b0 b1 : Z) : Z := Z.lor b1 (Z.shiftl b0 8).

(** [func compose_PORT_PLEASE2_REQ(name string) (reply []byte)].  The
    constant [EPMD_PORT_PLEASE2_REQ] is not declared in the sources and is a
    parameter.  No result stands for the panic of an out-of-range slice or
    index expression. *)
Definition compose_PORT_PLEASE2_REQ (EPMD_PORT_PLEASE2_REQ : Z) (name : string)
    : option (list Z) :=
  let replylen := uint16 (2 + Z.of_nat (String.length name) + 1) in
  let reply := replicate (Z.to_nat replylen) 0 in
  (* reply[0:2] *)
  if decide (length reply < 2)%nat then None
  else
    let reply := PutUint16_at 0 (uint16 (Z.of_nat (length reply) - 2)) reply in
    (* reply[2] = ... *)
    if decide (length reply <= 2)%nat then None
    else
      let reply := <[2%nat := byte EPMD_PORT_PLEASE2_REQ]> reply in
      (* copy(reply[3:replylen], name) *)
      Some (take 3 reply ++ copy_into (drop 3 reply) (bytes_of_string name)).

(** [strings.Split(s, "@")]; the byte of ["@"] is 64. *)
Fixpoint Split_at (s : string) : list string :=
  match s with
  | EmptyString => [EmptyString]
  | String c s' =>
      if decide (c = Ascii.ascii_of_nat 64) then EmptyString :: Split_at s'
      else match Split_at s' with
           | h :: t => String c h :: t
           | [] => [String c EmptyString]
           end
  end.

(** [NetworkRoute] ([node/types.go]) *)
Record NetworkRoute := mkNetworkRoute { nr_Port : Z; nr_Cookie : string; nr_TLS : bool }.

(** The errors of the resolver: the texts it makes with [fmt.Errorf], a
    text wrapped around another error, [io.EOF], and the errors the net
    package hands back. *)
Inductive resolver_error :=
| Errorf (msg : string)
| ErrorfWrap (msg : string) (cause : resolver_error)
| ErrorfMalformed (buf : list Z)
| io_EOF
| net_error (code : nat).

#[global] Instance resolver_error_eq_dec : EqDecision resolver_error.
Proof. solve_decision. Defined.

(** [type epmdResolver struct]: the fields the route functions use (the
    port of the EPMD server, written [e.Port] there, and the static routes,
    which the functions fill with [NetworkRoute] values). *)
Record epmdResolver := mkResolver {
  e_Port : Z;
  e_staticOnly : bool;
  e_staticRoutes : gmap string NetworkRoute;
}.

(** What the network answers: [net.LookupHost], [net.Dial], and on the
    connection [Write] and [Read] (the bytes received and the error). *)
Record net := mkNet {
  net_LookupHost : string -> option resolver_error;
  net_Dial : string -> Z -> option resolver_error;
  conn_Write : list Z -> option resolver_error;
  conn_Read : list Z * option resolver_error;
}.

(** [func (e *epmdResolver) addStaticRoute(name string, port uint16,
    cookie string, tls bool) error] *)
Definition addStaticRoute (nw : net) (name : string) (port : Z) (cookie : string)
    (tls : bool) (e : epmdResolver) : epmdResolver * option resolver_error :=
  let ns := Split_at name in
  let ns := if decide (length ns = 1%nat) then ns ++ ["localhost"] else ns in
  if decide (length ns ≠ 2%nat) then (e, Some (Errorf "wrong FQDN"))
  else
    match net_LookupHost nw (nth 1 ns "") with
    | Some err => (e, Some err)
    | None =>
        if e_staticOnly e && bool_decide (port = 0)
        then (e, Some (Errorf "EMPD is disabled. Port must be > 0"))
        else
          match e_staticRoutes e !! name with
          | Some _ => (e, Some (Errorf "already exist"))
          | None =>
              (mkResolver (e_Port e) (e_staticOnly e)
                 (<[name := mkNetworkRoute port cookie tls]> (e_staticRoutes e)),
               None)
          end
    end.

(** [func (e *epmdResolver) removeStaticRoute(name string)] *)
Definition removeStaticRoute (name : string) (e : epmdResolver) : epmdResolver :=
  mkResolver (e_Port e) (e_staticOnly e) (delete name (e_staticRoutes e)).

(** [func (e *epmdResolver) resolvePort(name string) (int, error)]; the
    constants [EPMD_PORT_PLEASE2_REQ] and [EPMD_PORT2_RESP] are parameters. *)
Definition resolvePort (EPMD_PORT_PLEASE2_REQ EPMD_PORT2_RESP : Z) (nw : net)
    (name : string) (e : epmdResolver) : option (Z * option resolver_error) :=
  let ns := Split_at name in
  if decide (length ns ≠ 2%nat)
  then Some (0, Some (Errorf "incorrect FQDN node name (example: node@localhost)"))
  else
    match net_Dial nw (nth 1 ns "") (e_Port e) with
    | Some err => Some (0, Some err)
    | None =>
        match compose_PORT_PLEASE2_REQ EPMD_PORT_PLEASE2_REQ (nth 0 ns "") with
        | None => None
        | Some req =>
            match conn_Write nw req with
            | Some err => Some (-1, Some (ErrorfWrap "initiate connection - " err))
            | None =>
                let buf := copy_into (replicate 1024 0) (conn_Read nw).1 in
                match (conn_Read nw).2 with
                | Some err =>
                    if decide (err ≠ io_EOF)
                    then Some (-1, Some (ErrorfWrap "reading from link - " err))
                    else
                      if decide (nth 0 buf 0 = EPMD_PORT2_RESP ∧ nth 1 buf 0 = 0)
                      then Some (Uint16_of (nth 2 buf 0) (nth 3 buf 0), None)
                      else if decide (0 < nth 1 buf 0)
                           then Some (-1, Some (Errorf "desired node not found"))
                           else Some (-1, Some (ErrorfMalformed buf))
                | None =>
                    if decide (nth 0 buf 0 = EPMD_PORT2_RESP ∧ nth 1 buf 0 = 0)
                    then Some (Uint16_of (nth 2 buf 0) (nth 3 buf 0), None)
                    else if decide (0 < nth 1 buf 0)
                         then Some (-1, Some (Errorf "desired node not found"))
                         else Some (-1, Some (ErrorfMalformed buf))
                end
            end
        end
    end.

(** [func (e *epmdResolver) resolve(name string) (NetworkRoute, error)] *)
Definition resolve (EPMD_PORT_PLEASE2_REQ EPMD_PORT2_RESP : Z) (nw : net)
    (name : string) (e : epmdResolver) : option (NetworkRoute * option resolver_error) :=
  let nr := default (mkNetworkRoute 0 "" false) (e_staticRoutes e !! name) in
  if bool_decide (is_Some (e_staticRoutes e !! name)) && bool_decide (0 < nr_Port nr)
  then Some (nr, None)
  else if e_staticOnly e
       then Some (nr, Some (Errorf ("Can't resolve " ++ name)))
       else
         match resolvePort EPMD_PORT_PLEASE2_REQ EPMD_PORT2_RESP nw name e with
         | None => None
         | Some (port, Some err) => Some (nr, Some err)
         | Some (port, None) =>
             Some (mkNetworkRoute port (nr_Cookie nr) (nr_TLS nr), None)
         end.

(** In static-only mode every stored route carries a port. *)
Definition static_ports (e : epmdResolver) : Prop :=
  e_staticOnly e = true ->
  map_Forall (fun (_ : string) (r : NetworkRoute) => 0 < nr_Port r) (e_staticRoutes e).

(** ** Reasoning about operations *)

Ltac go_unfold :=
  unfold bind, ret, get_core, mod_core, get_done, deref, store, alloc, WithCancel,
    cancel, call_kill, log_remote in *.

Ltac go_simpl := go_unfold; simpl in *.

(** Reading a field of an updated record, leaving map lookups folded. *)
Ltac proj_simpl :=
  cbn [w_core w_heap w_done w_sent w_next_cell w_next_loc
       w_set_core w_set_heap w_set_done w_set_sent
       core_network core_ctx core_stop core_env core_nextPID core_uniqID core_nodename
       core_creation core_names core_aliases core_processes
       core_set_nextPID core_set_uniqID core_set_names core_set_aliases core_set_processes
       proc_self proc_name proc_env proc_parent proc_groupLeader proc_mailBox
       proc_gracefulExit proc_trapExit proc_context proc_kill proc_exit proc_aliases
       proc_set_aliases proc_set_mailBox proc_set_gracefulExit proc_set_trapExit
       proc_set_exit fst snd] in *.

(** The powers of two of the mint, as numerals [lia] can use. *)
Ltac pow2 :=
  change (2 ^ 64) with 18446744073709551616 in *;
  change (2 ^ 46) with 70368744177664 in *;
  change (2 ^ 32) with 4294967296 in *;
  change (2 ^ 18) with 262144 in *.

(** * Properties *)

(** ** Identifier mint *)

Lemma uint64_range (z : Z) : 0 <= uint64 z < 2 ^ 64.
Proof. unfold uint64. apply Z.mod_pos_bound. lia. Qed.

Lemma uint64_idem (z : Z) : uint64 (uint64 z) = uint64 z.
Proof. unfold uint64. apply Z.mod_mod. lia. Qed.

Lemma low18_mask (z : Z) : Z.land z (Z.shiftl 2 17 - 1) = z mod 2 ^ 18.
Proof.
  replace (Z.shiftl 2 17 - 1) with (Z.ones 18) by reflexivity.
  apply Z.land_ones. lia.
Qed.

Lemma high_bits_fit (z : Z) : 0 <= z < 2 ^ 64 -> uint32 (Z.shiftr z 46) = Z.shiftr z 46.
Proof.
  intros Hz. unfold uint32. rewrite Z.shiftr_div_pow2 by lia.
  apply Z.mod_small. pow2. split.
  - apply Z.div_pos; lia.
  - apply Z.div_lt_upper_bound; lia.
Qed.

Lemma low18_fit (z : Z) : uint32 (z mod 2 ^ 18) = z mod 2 ^ 18.
Proof.
  unfold uint32. apply Z.mod_small.
  pose proof (Z.mod_pos_bound z (2 ^ 18)). pow2. lia.
Qed.

(** C5: every Ref made by [MakeRef] carries the node's name and creation; the
    call adds one to the 64-bit counter [uniqID] (wrapping at 2^64, so the
    counter grows by exactly one below that bound), and the three words are
    the new counter modulo 2^18, the new counter shifted right by 46 bits,
    and 0, each a 32-bit value; nothing else in the world changes.  At start
    [newCore] sets the counter to the clock's nanoseconds as a uint64. *)
Theorem MakeRef_spec (w : world) :
  let c := w_core w in
  let nt := (core_uniqID c + 1) mod 2 ^ 64 in
  MakeRef w =
    Some (mkRef (core_nodename c) (core_creation c) (nt mod 2 ^ 18, Z.shiftr nt 46, 0),
          w_set_core (core_set_uniqID nt c) w)
  ∧ (0 <= nt mod 2 ^ 18 < 2 ^ 32 ∧ 0 <= Z.shiftr nt 46 < 2 ^ 32)
  ∧ (0 <= core_uniqID c < 2 ^ 64 - 1 -> nt = core_uniqID c + 1)
  ∧ (∀ ctx nodename Creation now newNetwork done k,
       match newCore ctx nodename Creation now newNetwork done k with
       | inl w0 => core_uniqID (w_core w0) = now mod 2 ^ 64
                   ∧ core_nodename (w_core w0) = nodename
                   ∧ core_creation (w_core w0) = Creation
       | inr _ => True
       end).
Proof.
  intros c nt. repeat split.
  - unfold MakeRef. go_simpl. fold c. change (uint64 (core_uniqID c + 1)) with nt.
    assert (Hnt : 0 <= nt < 2 ^ 64) by apply uint64_range.
    assert (Hid : uint64 nt = nt) by apply uint64_idem.
    rewrite Hid, low18_mask, low18_fit, high_bits_fit by exact Hnt.
    reflexivity.
  - pose proof (Z.mod_pos_bound nt (2 ^ 18)). pow2. lia.
  - pose proof (Z.mod_pos_bound nt (2 ^ 18)). pow2. lia.
  - rewrite Z.shiftr_div_pow2 by lia. apply Z.div_pos; [apply uint64_range | lia].
  - rewrite Z.shiftr_div_pow2 by lia.
    pose proof (uint64_range (core_uniqID c + 1)) as Hr.
    change (uint64 (core_uniqID c + 1)) with nt in Hr.
    pow2. apply Z.div_lt_upper_bound; lia.
  - intros Hc. subst nt. apply Z.mod_small. pow2. lia.
  - intros ctx nodename Creation now newNetwork done k. unfold newCore.
    destruct (newNetwork _); [simpl; auto | exact I].
Qed.

(** ** Names *)

(** C10: [unregisterName] takes the name alone and checks no owner: when the
    name is registered it removes the mapping and returns nil, otherwise it
    returns [ErrNameUnknown] and changes nothing; [ErrNameUnknown] is returned
    exactly when the name is absent, and [ErrNameOwner] is never returned. *)
Theorem unregisterName_spec (name : string) (w : world) :
  ∃ r w', unregisterName name w = Some (r, w')
    ∧ (is_Some (core_names (w_core w) !! name) ->
         r = None
         ∧ w' = w_set_core (core_set_names (delete name (core_names (w_core w))) (w_core w)) w
         ∧ core_names (w_core w') !! name = None)
    ∧ (r = Some ErrNameUnknown <-> core_names (w_core w) !! name = None)
    ∧ (core_names (w_core w) !! name = None -> w' = w)
    ∧ r ≠ Some ErrNameOwner.
Proof.
  unfold unregisterName. go_simpl.
  destruct (core_names (w_core w) !! name) as [pid|] eqn:Hn.
  - eexists _, _. split; [reflexivity|].
    split; [intros _; split; [reflexivity|]; split; [reflexivity|]; simpl; apply lookup_delete_eq|].
    split; [split; congruence|]. split; congruence.
  - eexists _, _. split; [reflexivity|].
    split; [intros [? ?]; congruence|].
    split; [split; congruence|]. split; congruence.
Qed.

(** ** Lookups *)

Lemma IsAlive_cancelled (w : world) (p : loc) (pr : process) :
  w_heap w !! p = Some pr ->
  IsAlive p w = Some (negb (ctx_Err (w_done w) (proc_context pr)), w).
Proof. intros Hp. unfold IsAlive. go_simpl. rewrite Hp. reflexivity. Qed.

(** C7: a process whose context has been cancelled is not returned by any
    of the three lookups, although the process, alias or name table still
    holds it. *)
Theorem lookups_skip_cancelled (w : world) (p : loc) (pr : process) :
  w_heap w !! p = Some pr ->
  ctx_Err (w_done w) (proc_context pr) = true ->
  (∀ pid, core_processes (w_core w) !! PidID pid = Some p ->
          ProcessByPid pid w = Some (None, w))
  ∧ (∀ alias, core_aliases (w_core w) !! alias = Some p ->
              ProcessByAlias alias w = Some (None, w))
  ∧ (∀ name pid, name ≠ "" ->
                 core_names (w_core w) !! name = Some pid ->
                 core_processes (w_core w) !! PidID pid = Some p ->
                 ProcessByName name w = Some (None, w)).
Proof.
  intros Hp Hdead.
  assert (Hpid : ∀ pid, core_processes (w_core w) !! PidID pid = Some p ->
                        ProcessByPid pid w = Some (None, w)).
  { intros pid Ht. unfold ProcessByPid, bind at 1, get_core. rewrite Ht.
    unfold bind. rewrite (IsAlive_cancelled w p pr Hp), Hdead. reflexivity. }
  split; [exact Hpid|]. split.
  - intros alias Ht. unfold ProcessByAlias, bind at 1, get_core. rewrite Ht.
    unfold bind. rewrite (IsAlive_cancelled w p pr Hp), Hdead. reflexivity.
  - intros name pid Hne Hn Ht. unfold ProcessByName, bind, get_core.
    destruct (decide (name ≠ "")) as [_|]; [|contradiction].
    rewrite Hn. apply Hpid, Ht.
Qed.

(** The lookups at work on [ex_P_dead]: P has been sent an exit signal and
    is still registered by id, under the name ["svc"] and under its alias. *)
Lemma lookups_skip_cancelled_witness :
  core_processes (w_core ex_P_dead) !! 1001 = Some ex_locP
  ∧ core_names (w_core ex_P_dead) !! "svc" = Some ex_pidP
  ∧ core_aliases (w_core ex_P_dead) !! ex_alias = Some ex_locP
  ∧ ProcessByPid ex_pidP ex_P_dead = Some (None, ex_P_dead)
  ∧ ProcessByAlias ex_alias ex_P_dead = Some (None, ex_P_dead)
  ∧ ProcessByName "svc" ex_P_dead = Some (None, ex_P_dead).
Proof.
  assert (Hheap : ∃ pr, w_heap ex_P_dead !! ex_locP = Some pr
                        ∧ ctx_Err (w_done ex_P_dead) (proc_context pr) = true).
  { eexists. split; vm_compute; reflexivity. }
  destruct Hheap as (pr & Hpr & Hdead).
  destruct (lookups_skip_cancelled ex_P_dead ex_locP pr Hpr Hdead) as (Hpid & Hal & Hnm).
  assert (H1 : core_processes (w_core ex_P_dead) !! 1001 = Some ex_locP)
    by (vm_compute; reflexivity).
  assert (H2 : core_names (w_core ex_P_dead) !! "svc" = Some ex_pidP)
    by (vm_compute; reflexivity).
  assert (H3 : core_aliases (w_core ex_P_dead) !! ex_alias = Some ex_locP)
    by (vm_compute; reflexivity).
  split; [exact H1|]. split; [exact H2|]. split; [exact H3|].
  split; [exact (Hpid ex_pidP H1)|]. split; [exact (Hal ex_alias H3)|].
  refine (Hnm "svc" ex_pidP _ H2 H1). discriminate.
Defined.

(** ** The send routes *)

Lemma chan_try_send_full {A} (ch : chan A) (x : A) :
  (chan_cap ch <= length (chan_buf ch))%nat -> chan_try_send (Some ch) x = None.
Proof. intros Hfull. unfold chan_try_send. case_decide; [lia | reflexivity]. Qed.

Lemma chan_try_send_room {A} (ch : chan A) (x : A) :
  (length (chan_buf ch) < chan_cap ch)%nat ->
  chan_try_send (Some ch) x = Some (mkChan (chan_buf ch ++ [x]) (chan_cap ch)).
Proof. intros Hroom. unfold chan_try_send. case_decide; [reflexivity | lia]. Qed.

(** C2, as the code has it: a send from a pid of this node to a local
    process of this incarnation whose mailbox is full returns the warning
    made by [fmt.Errorf] (an error, not nil); the call returns at once and
    leaves the whole world, the queued messages included, as it was. *)
Theorem RouteSend_full_mailbox (w : world) (from to : Pid) (message : Term)
    (p : loc) (pr : process) (mb : chan (Pid * Term)) :
  PidNode from = core_nodename (w_core w) ->
  PidNode to = core_nodename (w_core w) ->
  PidCreation to = core_creation (w_core w) ->
  core_processes (w_core w) !! PidID to = Some p ->
  w_heap w !! p = Some pr ->
  proc_mailBox pr = Some mb ->
  (chan_cap mb <= length (chan_buf mb))%nat ->
  RouteSend from to message w = Some (Some (ErrorfMailboxFull (proc_self pr) from), w).
Proof.
  intros Hfrom Hto Hcr Ht Hp Hmb Hfull. unfold RouteSend. go_simpl.
  destruct (decide (PidNode from ≠ core_nodename (w_core w))) as [Hne|_]; [contradiction|].
  destruct (decide (PidNode to = core_nodename (w_core w))) as [_|Hne]; [|contradiction].
  destruct (decide (PidCreation to ≠ core_creation (w_core w))) as [Hne|_]; [contradiction|].
  rewrite Ht, Hp, Hmb, chan_try_send_full by exact Hfull. reflexivity.
Qed.

Lemma RouteSend_full_mailbox_witness :
  RouteSend ex_pidP ex_pidQ (TermInt 2) ex_Q_full
  = Some (Some (ErrorfMailboxFull ex_pidQ ex_pidP), ex_Q_full).
Proof.
  refine (RouteSend_full_mailbox ex_Q_full ex_pidP ex_pidQ (TermInt 2) ex_locQ
            (mkProcess ex_pidQ "" ∅ None None
               (Some (mkChan [(ex_pidP, TermInt 1)] 1%nat)) (Some (mkChan [] 1%nat))
               false [2%nat; 0%nat] (Some 2%nat)
               (Some (mkExit [2%nat; 0%nat] ex_locQ)) [])
            (mkChan [(ex_pidP, TermInt 1)] 1%nat) _ _ _ _ _ _ _);
    vm_compute; reflexivity.
Defined.

(** C2, as stated, fails on [ex_Q_full]: Q is alive, its one-slot mailbox is
    full, and the send from P returns an error instead of nil. *)
Lemma RouteSend_full_mailbox_not_ok :
  ProcessByPid ex_pidQ ex_Q_full = Some (Some ex_locQ, ex_Q_full)
  ∧ (proc_mailBox <$> w_heap ex_Q_full !! ex_locQ)
    = Some (Some (mkChan [(ex_pidP, TermInt 1)] 1%nat))
  ∧ RouteSend ex_pidP ex_pidQ (TermInt 2) ex_Q_full
    = Some (Some (ErrorfMailboxFull ex_pidQ ex_pidP), ex_Q_full)
  ∧ (fst <$> RouteSend ex_pidP ex_pidQ (TermInt 2) ex_Q_full) ≠ Some None.
Proof.
  split; [vm_compute; reflexivity|]. split; [vm_compute; reflexivity|].
  assert (H : RouteSend ex_pidP ex_pidQ (TermInt 2) ex_Q_full
              = Some (Some (ErrorfMailboxFull ex_pidQ ex_pidP), ex_Q_full))
    by (vm_compute; reflexivity).
  split; [exact H|]. rewrite H. discriminate.
Qed.

(** C3, as the code has it: the three send routes compare the node name of
    [from] alone; when it is not this node's name they return
    [ErrSenderUnknown] and leave the world as it was. *)
Theorem Route_alien_sender (w : world) (from : Pid) (message : Term) :
  PidNode from ≠ core_nodename (w_core w) ->
  (∀ to, RouteSend from to message w = Some (Some ErrSenderUnknown, w))
  ∧ (∀ to, RouteSendReg from to message w = Some (Some ErrSenderUnknown, w))
  ∧ (∀ to, RouteSendAlias from to message w = Some (Some ErrSenderUnknown, w)).
Proof.
  intros Hne. repeat split; intros to;
    [unfold RouteSend | unfold RouteSendReg | unfold RouteSendAlias];
    go_simpl; case_decide; try contradiction; reflexivity.
Qed.

Lemma Route_alien_sender_witness :
  RouteSend (mkPid "peer@host" 1001 7) ex_pidQ (TermInt 1) ex_two
  = Some (Some ErrSenderUnknown, ex_two)
  ∧ RouteSendReg (mkPid "peer@host" 1001 7) (mkProcessID "svc" "node@host") (TermInt 1) ex_two
    = Some (Some ErrSenderUnknown, ex_two)
  ∧ RouteSendAlias (mkPid "peer@host" 1001 7) ex_alias (TermInt 1) ex_two
    = Some (Some ErrSenderUnknown, ex_two).
Proof.
  assert (Hne : PidNode (mkPid "peer@host" 1001 7) ≠ core_nodename (w_core ex_two))
    by (vm_compute; discriminate).
  destruct (Route_alien_sender ex_two (mkPid "peer@host" 1001 7) (TermInt 1) Hne)
    as (H1 & H2 & H3).
  split; [apply H1|]. split; [apply H2 | apply H3].
Defined.

(** C3, as stated, fails: a [from] pid that carries this node's name and
    another creation (6, the node's is 7), and that names no process of the
    table, is accepted, and the message lands in Q's mailbox. *)
Lemma RouteSend_sender_creation_unchecked :
  core_creation (w_core ex_two) = 7
  ∧ core_processes (w_core ex_two) !! 4242 = None
  ∧ (fst <$> RouteSend (mkPid "node@host" 4242 6) ex_pidQ (TermInt 1) ex_two) = Some None
  ∧ (proc_mailBox <$>
       w_heap (after (RouteSend (mkPid "node@host" 4242 6) ex_pidQ (TermInt 1)) ex_two)
       !! ex_locQ)
    = Some (Some (mkChan [(mkPid "node@host" 4242 6, TermInt 1)] 1%nat)).
Proof. repeat split; vm_compute; reflexivity. Qed.

(** C4, as the code has it: a send from a pid of this node to a pid that
    carries this node's name and another creation returns
    [ErrProcessIncarnation] and leaves the world as it was. *)
Theorem RouteSend_previous_incarnation (w : world) (from to : Pid) (message : Term) :
  PidNode from = core_nodename (w_core w) ->
  PidNode to = core_nodename (w_core w) ->
  PidCreation to ≠ core_creation (w_core w) ->
  RouteSend from to message w = Some (Some ErrProcessIncarnation, w).
Proof.
  intros Hfrom Hto Hcr. unfold RouteSend. go_simpl.
  repeat case_decide; try contradiction; reflexivity.
Qed.

Lemma RouteSend_previous_incarnation_witness :
  RouteSend ex_pidP (mkPid "node@host" 1002 6) (TermInt 1) ex_two
  = Some (Some ErrProcessIncarnation, ex_two).
Proof.
  apply (RouteSend_previous_incarnation ex_two ex_pidP (mkPid "node@host" 1002 6) (TermInt 1));
    [vm_compute; reflexivity | vm_compute; reflexivity | vm_compute; discriminate].
Defined.

(** C4, as stated, fails: for the live process P and a pid of the node
    ["peer@host"] whose creation (3) is not the node's (7), the send takes
    the remote path, is handed to the connection, and returns nil. *)
Lemma RouteSend_remote_creation_unchecked :
  ProcessByPid ex_pidP ex_two = Some (Some ex_locP, ex_two)
  ∧ core_creation (w_core ex_two) = 7
  ∧ RouteSend ex_pidP (mkPid "peer@host" 55 3) (TermInt 1) ex_two
    = Some (None,
            w_set_sent [RemoteSend "peer@host" ex_locP (mkPid "peer@host" 55 3) (TermInt 1)]
              ex_two)
  ∧ (fst <$> RouteSend ex_pidP (mkPid "peer@host" 55 3) (TermInt 1) ex_two)
    ≠ Some (Some ErrProcessIncarnation).
Proof.
  split; [vm_compute; reflexivity|]. split; [vm_compute; reflexivity|].
  assert (H : RouteSend ex_pidP (mkPid "peer@host" 55 3) (TermInt 1) ex_two
    = Some (None,
            w_set_sent [RemoteSend "peer@host" ex_locP (mkPid "peer@host" 55 3) (TermInt 1)]
              ex_two)) by (vm_compute; reflexivity).
  split; [exact H|]. rewrite H. discriminate.
Qed.

(** ** The exit capability *)

(** What [newProcess] wires: the new object is registered under its id, has
    an empty graceful-exit channel, does not trap exits, holds a kill handle,
    and its [exit] closure captures the object and its own context. *)
Lemma newProcess_wires_exit (name : string) (opts : processOptions)
    (w w' : world) (l : loc) :
  newProcess name opts w = Some ((Some l, None), w') ->
  ∃ pr n, w_heap w' !! l = Some pr
    ∧ core_processes (w_core w') !! PidID (proc_self pr) = Some l
    ∧ proc_exit pr = Some (mkExit (proc_context pr) l)
    ∧ proc_gracefulExit pr = Some (make_chan n)
    ∧ proc_trapExit pr = false
    ∧ is_Some (proc_kill pr).
Proof.
  unfold newProcess. intros H.
  destruct (opt_Context opts) as [uc|]; go_simpl;
    rewrite lookup_insert_eq in H; simpl in H;
    repeat case_decide; simpl in H; inversion H; subst; clear H; simpl;
    eexists _, _; rewrite lookup_insert_eq; (split; [reflexivity|]);
    unfold proc_set_exit;
    cbn [proc_self proc_exit proc_context proc_gracefulExit proc_trapExit proc_kill PidID];
    rewrite lookup_insert_eq; repeat split; eauto.
Qed.

(** C9, as the code has it: [exit] first reads the captured context and, if
    it is cancelled, returns [ErrProcessUnknown] and changes nothing.
    Otherwise it tries to queue [(from, reason)] on the graceful-exit channel
    without blocking; with no room it returns [ErrProcessBusy] and changes
    nothing; with room the record is queued behind the earlier ones, the
    kill handle is invoked unless the process traps exits, and nil is
    returned. *)
Theorem process_exit_spec (w : world) (cl : exit_closure) (from : Pid) (reason : string)
    (p : process) (ch : chan (Pid * string)) (k : cell) :
  w_heap w !! exit_process cl = Some p ->
  proc_gracefulExit p = Some ch ->
  proc_kill p = Some k ->
  process_exit cl from reason w =
    if ctx_Err (w_done w) (exit_processContext cl) then Some (Some ErrProcessUnknown, w)
    else if decide (length (chan_buf ch) < chan_cap ch)%nat then
      Some (None,
            w_set_done (if proc_trapExit p then w_done w else {[k]} ∪ w_done w)
              (w_set_heap
                 (<[exit_process cl :=
                      proc_set_gracefulExit
                        (Some (mkChan (chan_buf ch ++ [(from, reason)]) (chan_cap ch))) p]>
                    (w_heap w)) w))
    else Some (Some ErrProcessBusy, w).
Proof.
  intros Hp Hch Hk. unfold process_exit. go_simpl.
  destruct (ctx_Err (w_done w) (exit_processContext cl)); [reflexivity|].
  rewrite Hp, Hch. unfold chan_try_send.
  case_decide; [|reflexivity].
  simpl. rewrite lookup_insert_eq. simpl. rewrite Hk.
  destruct (proc_trapExit p); reflexivity.
Qed.

(** The first exit signal to P on [ex_two]: queued, and P's context is
    cancelled through the kill handle (cell 1). *)
Lemma process_exit_spec_witness :
  (fst <$> process_exit (mkExit [1%nat; 0%nat] ex_locP) ex_pidQ "boom" ex_two) = Some None
  ∧ w_done (after (process_exit (mkExit [1%nat; 0%nat] ex_locP) ex_pidQ "boom") ex_two)
    = {[1%nat]} ∪ ∅.
Proof.
  assert (Hp : ∃ p, w_heap ex_two !! ex_locP = Some p
                    ∧ proc_gracefulExit p = Some (mkChan [] 100%nat)
                    ∧ proc_kill p = Some 1%nat
                    ∧ proc_trapExit p = false).
  { eexists. repeat split; vm_compute; reflexivity. }
  destruct Hp as (p & Hp & Hch & Hk & Htrap).
  assert (Halive : ctx_Err (w_done ex_two) (exit_processContext (mkExit [1%nat; 0%nat] ex_locP))
                   = false) by (vm_compute; reflexivity).
  pose proof (process_exit_spec ex_two (mkExit [1%nat; 0%nat] ex_locP) ex_pidQ "boom"
                p (mkChan [] 100%nat) 1%nat Hp Hch Hk) as H.
  unfold after. rewrite H, Halive, Htrap. simpl. split; reflexivity.
Defined.

(** C9, as stated, fails on [ex_P_dead]: P does not trap exits, its
    graceful-exit channel holds one record of a hundred, and its context is
    cancelled; the capability wired into P returns [ErrProcessUnknown],
    queues nothing and changes nothing. *)
Lemma process_exit_dead_process :
  (proc_exit <$> w_heap ex_P_dead !! ex_locP)
    = Some (Some (mkExit [1%nat; 0%nat] ex_locP))
  ∧ (proc_gracefulExit <$> w_heap ex_P_dead !! ex_locP)
    = Some (Some (mkChan [(ex_pidQ, "boom")] 100%nat))
  ∧ (proc_trapExit <$> w_heap ex_P_dead !! ex_locP) = Some false
  ∧ process_exit (mkExit [1%nat; 0%nat] ex_locP) ex_pidQ "again" ex_P_dead
    = Some (Some ErrProcessUnknown, ex_P_dead).
Proof. repeat split; vm_compute; reflexivity. Qed.

(** ** Reaping *)

Lemma delete_loop_lookup (m0 m : gmap Alias loc) (a : Alias) :
  map_fold (fun alias (_ : loc) acc => delete alias acc) m0 m !! a
  = match m !! a with Some _ => None | None => m0 !! a end.
Proof.
  apply (map_fold_weak_ind
           (fun (acc m' : gmap Alias loc) =>
              acc !! a = match m' !! a with Some _ => None | None => m0 !! a end)).
  - by rewrite lookup_empty.
  - intros i x m' r Hi IH. destruct (decide (i = a)) as [->|Hne].
    + by rewrite lookup_delete_eq, lookup_insert_eq.
    + rewrite lookup_delete_ne, lookup_insert_ne by done. exact IH.
Qed.

(** The alias loop of [deleteProcess] empties the table, whoever owns the
    aliases. *)
Lemma delete_aliases_loop_empty (m : gmap Alias loc) : delete_aliases_loop m = ∅.
Proof.
  apply map_eq. intros a. unfold delete_aliases_loop.
  rewrite delete_loop_lookup, lookup_empty. by destruct (m !! a).
Qed.

(** The name loop removes exactly the names bound to the pid. *)
Lemma delete_names_of_lookup (self : Pid) (m : gmap string Pid) (n : string) :
  delete_names_of self m !! n
  = match m !! n with
    | Some pid => if decide (self = pid) then None else Some pid
    | None => None
    end.
Proof.
  unfold delete_names_of.
  assert (H : ∀ m0 : gmap string Pid,
             map_fold (fun name pid acc => if decide (self = pid) then delete name acc else acc)
               m0 m !! n
             = match m !! n with
               | Some pid => if decide (self = pid) then None else m0 !! n
               | None => m0 !! n
               end).
  { intros m0.
    apply (map_fold_weak_ind
             (fun (acc m' : gmap string Pid) =>
                acc !! n = match m' !! n with
                           | Some pid => if decide (self = pid) then None else m0 !! n
                           | None => m0 !! n
                           end)).
    - by rewrite lookup_empty.
    - intros i x m' r Hi IH. destruct (decide (i = n)) as [->|Hne].
      + rewrite lookup_insert_eq. rewrite Hi in IH.
        destruct (decide (self = x)); [by rewrite lookup_delete_eq | exact IH].
      + rewrite lookup_insert_ne by done.
        destruct (decide (self = x)); [rewrite lookup_delete_ne by done|]; exact IH. }
  rewrite H. destruct (m !! n) as [pid|] eqn:Hm; [|reflexivity].
  by destruct (decide (self = pid)).
Qed.

(** What [deleteProcess] does to a registered process: the id, the
    registered name and every name bound to its pid are removed, the lookup
    by pid gives nil afterwards, and the alias table is left empty. *)
Lemma deleteProcess_registered (w : world) (pid : Pid) (p : loc) (pr : process) :
  core_processes (w_core w) !! PidID pid = Some p ->
  w_heap w !! p = Some pr ->
  ∃ w', deleteProcess pid w = Some (tt, w')
    ∧ core_processes (w_core w') = delete (PidID pid) (core_processes (w_core w))
    ∧ (proc_name pr ≠ "" -> core_names (w_core w') !! proc_name pr = None)
    ∧ (∀ n, core_names (w_core w') !! n ≠ Some (proc_self pr))
    ∧ core_aliases (w_core w') = ∅
    ∧ ProcessByPid pid w' = Some (None, w')
    ∧ w_heap w' = w_heap w.
Proof.
  intros Ht Hp. unfold deleteProcess. go_simpl. rewrite Ht, Hp.
  destruct (decide (proc_name pr ≠ "")) as [Hn|Hn]; simpl;
    (eexists; split; [reflexivity|]); simpl; (split; [reflexivity|]).
  - split.
    { intros _. rewrite delete_names_of_lookup, lookup_delete_eq. reflexivity. }
    split.
    { intros n. rewrite delete_names_of_lookup.
      destruct (delete (proc_name pr) (core_names (w_core w)) !! n) as [q|]; [|done].
      destruct (decide (proc_self pr = q)); congruence. }
    split; [apply delete_aliases_loop_empty|].
    split; [|reflexivity]. unfold ProcessByPid. go_simpl.
    by rewrite lookup_delete_eq.
  - split; [intros; contradiction|].
    split.
    { intros n. rewrite delete_names_of_lookup.
      destruct (core_names (w_core w) !! n) as [q|]; [|done].
      destruct (decide (proc_self pr = q)); congruence. }
    split; [apply delete_aliases_loop_empty|].
    split; [|reflexivity]. unfold ProcessByPid. go_simpl.
    by rewrite lookup_delete_eq.
Qed.

(** C1: the clean-up of P does not keep the aliases of other processes.  On
    [ex_two_alias] the live process Q owns [ex_alias] and the alias table
    maps it to Q; after [deleteProcess] of P, Q is still alive, registered
    and lists the alias, while the alias table has lost it and the lookup by
    alias gives nil. *)
Theorem deleteProcess_drops_foreign_alias :
  core_aliases (w_core ex_two_alias) !! ex_alias = Some ex_locQ
  ∧ ProcessByAlias ex_alias ex_two_alias = Some (Some ex_locQ, ex_two_alias)
  ∧ deleteProcess ex_pidP ex_two_alias = Some (tt, ex_P_reaped)
  ∧ ProcessByPid ex_pidP ex_P_reaped = Some (None, ex_P_reaped)
  ∧ ProcessByName "svc" ex_P_reaped = Some (None, ex_P_reaped)
  ∧ ProcessByPid ex_pidQ ex_P_reaped = Some (Some ex_locQ, ex_P_reaped)
  ∧ (proc_aliases <$> w_heap ex_P_reaped !! ex_locQ) = Some [ex_alias]
  ∧ core_aliases (w_core ex_P_reaped) !! ex_alias = None
  ∧ ProcessByAlias ex_alias ex_P_reaped = Some (None, ex_P_reaped).
Proof. repeat split; vm_compute; reflexivity. Qed.

(** ** Aliases *)

Lemma alias_index_None (a : Alias) (l : list Alias) :
  alias_index a l = None <-> a ∉ l.
Proof.
  induction l as [|b l IH]; simpl.
  - split; [intros _; apply not_elem_of_nil | done].
  - rewrite not_elem_of_cons. destruct (decide (a = b)) as [->|Hne].
    + split; [intros [=] | intros [Hn _]; by destruct Hn].
    + destruct (alias_index a l); simpl.
      * split; [intros [=] | intros [_ Hn]; apply IH in Hn; discriminate].
      * split; [intros _; split; [done | by apply IH] | done].
Qed.

Lemma alias_index_lookup (a : Alias) (l : list Alias) (i : nat) :
  alias_index a l = Some i -> l !! i = Some a.
Proof.
  revert i. induction l as [|b l IH]; intros i; simpl; [done|].
  destruct (decide (a = b)) as [->|Hne].
  - intros [= <-]. reflexivity.
  - destruct (alias_index a l) as [j|]; simpl; [|done].
    intros [= <-]. simpl. by apply IH.
Qed.

(** Removing the slot [i] keeps every other alias of the list. *)
Lemma alias_remove_at_keeps (a b : Alias) (l : list Alias) (i : nat) :
  l !! i = Some a -> b ≠ a -> b ∈ l -> b ∈ alias_remove_at i l.
Proof.
  intros Hi Hne Hb. unfold alias_remove_at.
  destruct l as [|a0 l]; [done|].
  destruct i as [|i]; simpl.
  - simpl in Hi. injection Hi as ->.
    apply elem_of_cons in Hb as [->|Hb]; [done | exact Hb].
  - simpl in Hi. rewrite drop_0.
    apply elem_of_cons in Hb as [->|Hb].
    + apply list_elem_of_lookup. exists i.
      apply list_lookup_insert_eq. by eapply lookup_lt_Some.
    + apply list_elem_of_lookup in Hb as [j Hj].
      apply list_elem_of_lookup. exists j.
      destruct (decide (i = j)) as [->|Hij]; [congruence|].
      by rewrite list_lookup_insert_ne.
Qed.

(** C6: with [owner] a process object and the alias table in step with the
    alias lists, [deleteAlias] answers in this order: [ErrAliasUnknown] when
    the alias is not in the table; [ErrProcessUnknown] when the owner's id is
    not in the process table; [ErrAliasOwner] when the alias belongs to a
    process with another pid.  Whenever it returns an error, the world,
    with the alias table and every alias list, is as before; and after a
    successful delete, deleting the same alias again gives [ErrAliasUnknown]. *)
Theorem deleteAlias_errors (w : world) (owner : loc) (ow : process) (alias : Alias) :
  w_heap w !! owner = Some ow ->
  aliases_listed w ->
  (core_aliases (w_core w) !! alias = None ->
     deleteAlias owner alias w = Some (Some ErrAliasUnknown, w))
  ∧ (is_Some (core_aliases (w_core w) !! alias) ->
     core_processes (w_core w) !! PidID (proc_self ow) = None ->
     deleteAlias owner alias w = Some (Some ErrProcessUnknown, w))
  ∧ (∀ p pp, core_aliases (w_core w) !! alias = Some p ->
             w_heap w !! p = Some pp ->
             is_Some (core_processes (w_core w) !! PidID (proc_self ow)) ->
             proc_self pp ≠ proc_self ow ->
             deleteAlias owner alias w = Some (Some ErrAliasOwner, w))
  ∧ (∀ e w', deleteAlias owner alias w = Some (Some e, w') -> w' = w)
  ∧ (∀ w', deleteAlias owner alias w = Some (None, w') ->
           deleteAlias owner alias w' = Some (Some ErrAliasUnknown, w')).
Proof.
  intros How Hinv. repeat split.
  - intros Ha. unfold deleteAlias. go_simpl. by rewrite How, Ha.
  - intros [p Ha] Ht. unfold deleteAlias. go_simpl. by rewrite How, Ha, Ht.
  - intros p pp Ha Hp [q Ht] Hne. unfold deleteAlias. go_simpl.
    rewrite How, Ha, Ht, Hp. by case_decide.
  - intros e w'. unfold deleteAlias. go_simpl. rewrite How.
    destruct (core_aliases (w_core w) !! alias) as [p|] eqn:Ha; [|congruence].
    destruct (core_processes (w_core w) !! PidID (proc_self ow)); [|congruence].
    specialize (Hinv alias p Ha). simpl in Hinv.
    destruct (w_heap w !! p) as [pp|]; [|congruence]. simpl in Hinv.
    case_decide; [|congruence].
    destruct (alias_index alias (proc_aliases pp)) eqn:Hidx; [congruence|].
    apply alias_index_None in Hidx. contradiction.
  - intros w'. unfold deleteAlias at 1. go_simpl. rewrite How.
    destruct (core_aliases (w_core w) !! alias) as [p|] eqn:Ha; [|congruence].
    destruct (core_processes (w_core w) !! PidID (proc_self ow)); [|congruence].
    destruct (w_heap w !! p) as [pp|] eqn:Hp; [|congruence].
    case_decide; [|congruence].
    destruct (alias_index alias (proc_aliases pp)); [|congruence].
    intros [= <-]. unfold deleteAlias. go_simpl.
    destruct (decide (p = owner)) as [->|Hne].
    + rewrite lookup_insert_eq. proj_simpl. by rewrite lookup_delete_eq.
    + rewrite lookup_insert_ne, How by done. proj_simpl. by rewrite lookup_delete_eq.
Qed.

(** [deleteAlias] on [ex_two_alias], where Q owns [ex_alias]: P is refused as
    not the owner, an alias nobody made is unknown, and Q's second delete of
    its alias finds it unknown. *)
Lemma deleteAlias_errors_witness :
  deleteAlias ex_locP ex_alias ex_two_alias = Some (Some ErrAliasOwner, ex_two_alias)
  ∧ deleteAlias ex_locP (mkRef "node@host" 7 (5, 5, 0)) ex_two_alias
    = Some (Some ErrAliasUnknown, ex_two_alias)
  ∧ (fst <$> deleteAlias ex_locQ ex_alias (after (deleteAlias ex_locQ ex_alias) ex_two_alias))
    = Some (Some ErrAliasUnknown).
Proof.
  assert (Hinv : aliases_listed ex_two_alias).
  { apply (bool_decide_unpack _). vm_compute. exact I. }
  assert (HP : ∃ ow, w_heap ex_two_alias !! ex_locP = Some ow
                     ∧ PidID (proc_self ow) = 1001 ∧ proc_self ow = ex_pidP).
  { eexists. repeat split; vm_compute; reflexivity. }
  assert (HQ : ∃ oq, w_heap ex_two_alias !! ex_locQ = Some oq ∧ proc_self oq = ex_pidQ).
  { eexists. split; vm_compute; reflexivity. }
  destruct HP as (ow & How & Hid & Hself). destruct HQ as (oq & Hoq & Hselfq).
  destruct (deleteAlias_errors ex_two_alias ex_locP ow ex_alias How Hinv)
    as (_ & _ & Howner & _ & _).
  destruct (deleteAlias_errors ex_two_alias ex_locP ow (mkRef "node@host" 7 (5, 5, 0)) How Hinv)
    as (Hunknown & _).
  destruct (deleteAlias_errors ex_two_alias ex_locQ oq ex_alias Hoq Hinv)
    as (_ & _ & _ & _ & Hagain).
  split; [|split].
  - apply (Howner ex_locQ oq); [vm_compute; reflexivity | exact Hoq | |].
    + rewrite Hid. vm_compute. eauto.
    + rewrite Hself, Hselfq. discriminate.
  - apply Hunknown. vm_compute. reflexivity.
  - assert (Hok : ∃ w', deleteAlias ex_locQ ex_alias ex_two_alias = Some (None, w')).
    { eexists. vm_compute. reflexivity. }
    destruct Hok as (w' & Hok). unfold after. rewrite Hok, (Hagain w' Hok). reflexivity.
Defined.

(** ** The registry invariant is kept by every operation *)

Lemma registry_inv_ext (w w' : world) :
  core_aliases (w_core w') = core_aliases (w_core w) ->
  w_heap w' = w_heap w ->
  w_next_loc w' = w_next_loc w ->
  registry_inv w -> registry_inv w'.
Proof.
  intros Ha Hh Hn [Hl Hb]. unfold registry_inv, aliases_listed, heap_bounded in *.
  rewrite Ha, Hh, Hn. done.
Qed.

Lemma registry_inv_store (w : world) (l : loc) (pr pr' : process) :
  w_heap w !! l = Some pr ->
  (∀ a, a ∈ proc_aliases pr -> a ∈ proc_aliases pr') ->
  registry_inv w ->
  registry_inv (w_set_heap (<[l := pr']> (w_heap w)) w).
Proof.
  intros Hl Hsub [Hal Hb]. split.
  - intros a l' Ha. proj_simpl. specialize (Hal a l' Ha). simpl in Hal.
    destruct (decide (l = l')) as [<-|Hne].
    + rewrite lookup_insert_eq. rewrite Hl in Hal. simpl in *. by apply Hsub.
    + by rewrite lookup_insert_ne.
  - intros l' p'. proj_simpl. destruct (decide (l = l')) as [<-|Hne].
    + intros _. exact (Hb l pr Hl).
    + rewrite lookup_insert_ne by done. apply Hb.
Qed.

Lemma newCore_inv ctx nodename Creation now newNetwork done k (w : world) :
  newCore ctx nodename Creation now newNetwork done k = inl w -> registry_inv w.
Proof.
  unfold newCore. destruct (newNetwork _); [|discriminate].
  intros [= <-]. split; apply map_Forall_empty.
Qed.

Lemma newProcess_inv (name : string) (opts : processOptions) (w w' : world) r :
  newProcess name opts w = Some (r, w') -> registry_inv w -> registry_inv w'.
Proof.
  intros H [Hal Hb].
  assert (Hfresh : ∀ a l, core_aliases (w_core w) !! a = Some l -> l ≠ w_next_loc w).
  { intros a l Ha ->. specialize (Hal a _ Ha). simpl in Hal.
    destruct (w_heap w !! w_next_loc w) as [q|] eqn:Hq;
      [apply Hb in Hq; lia | simpl in Hal; by apply elem_of_nil in Hal]. }
  assert (Hgoal : ∀ (h : gmap loc process) (q : process),
             (∀ l, l ≠ w_next_loc w -> h !! l = w_heap w !! l) ->
             h !! w_next_loc w = Some q ->
             ∀ w2, core_aliases (w_core w2) = core_aliases (w_core w) ->
                   w_heap w2 = h -> w_next_loc w2 = S (w_next_loc w) ->
                   registry_inv w2).
  { intros h q Hother Hnew w2 E1 E2 E3. split.
    - intros a l Ha. rewrite E1 in Ha. simpl. rewrite E2, Hother by eauto.
      exact (Hal a l Ha).
    - intros l p Hl. rewrite E3. rewrite E2 in Hl.
      destruct (decide (l = w_next_loc w)) as [->|Hne]; [lia|].
      rewrite Hother in Hl by done. apply Hb in Hl. lia. }
  unfold newProcess in H.
  destruct (opt_Context opts) as [uc|]; go_simpl;
    rewrite lookup_insert_eq in H; simpl in H;
    repeat case_decide; simpl in H; inversion H; subst; clear H;
    (eapply Hgoal; [| | reflexivity | reflexivity | reflexivity];
     [intros l Hne; proj_simpl; by rewrite !lookup_insert_ne
     | proj_simpl; by rewrite lookup_insert_eq]).
Qed.

Lemma newAlias_inv (p : loc) (w w' : world) r :
  newAlias p w = Some (r, w') -> registry_inv w -> registry_inv w'.
Proof.
  unfold newAlias, MakeRef. go_simpl.
  destruct (w_heap w !! p) as [pr|] eqn:Hp; [|discriminate].
  destruct (core_processes (w_core w) !! PidID (proc_self pr)) as [reg|]; simpl.
  - rewrite Hp. intros [= <- <-] [Hal Hb]. split.
    + intros a l. proj_simpl.
      match goal with |- <[?x := _]> _ !! _ = _ -> _ => set (alias := x) end.
      destruct (decide (alias = a)) as [<-|Hne].
      * rewrite lookup_insert_eq. intros [= <-].
        rewrite lookup_insert_eq. proj_simpl. simpl. apply elem_of_app. right.
        apply list_elem_of_singleton. reflexivity.
      * rewrite lookup_insert_ne by done. intros Ha.
        specialize (Hal a l Ha). simpl in Hal.
        destruct (decide (p = l)) as [<-|Hpl].
        -- rewrite lookup_insert_eq. rewrite Hp in Hal. simpl in *.
           apply elem_of_app. by left.
        -- by rewrite lookup_insert_ne.
    + intros l q. proj_simpl. destruct (decide (p = l)) as [<-|Hpl].
      * intros _. exact (Hb p pr Hp).
      * rewrite lookup_insert_ne by done. apply Hb.
  - intros [= <- <-]. done.
Qed.

Lemma deleteAlias_inv (owner : loc) (alias : Alias) (w w' : world) r :
  deleteAlias owner alias w = Some (r, w') -> registry_inv w -> registry_inv w'.
Proof.
  unfold deleteAlias. go_simpl.
  destruct (w_heap w !! owner) as [ow|]; [|discriminate].
  destruct (core_aliases (w_core w) !! alias) as [p|] eqn:Ha; [|by intros [= <- <-]].
  destruct (core_processes (w_core w) !! PidID (proc_self ow)) as [reg|];
    [|by intros [= <- <-]].
  destruct (w_heap w !! p) as [pp|] eqn:Hp; [|discriminate].
  case_decide; [|by intros [= <- <-]].
  destruct (alias_index alias (proc_aliases pp)) as [i|] eqn:Hi.
  - intros [= <- <-] [Hal Hb]. apply alias_index_lookup in Hi. split.
    + intros a l. proj_simpl. intros Hal'.
      apply lookup_delete_Some in Hal' as [Hne Hal'].
      specialize (Hal a l Hal'). simpl in Hal.
      destruct (decide (p = l)) as [<-|Hpl].
      * rewrite lookup_insert_eq. rewrite Hp in Hal. simpl in *.
        by apply (alias_remove_at_keeps alias).
      * by rewrite lookup_insert_ne.
    + intros l q. proj_simpl. destruct (decide (p = l)) as [<-|Hpl].
      * intros _. exact (Hb p pp Hp).
      * rewrite lookup_insert_ne by done. apply Hb.
  - intros [= <- <-] [Hal Hb]. split; [|exact Hb].
    intros a l. proj_simpl. intros Hal'.
    apply lookup_delete_Some in Hal' as [Hne Hal']. exact (Hal a l Hal').
Qed.

Lemma deleteProcess_inv (pid : Pid) (w w' : world) :
  deleteProcess pid w = Some (tt, w') -> registry_inv w -> registry_inv w'.
Proof.
  intros H Hinv.
  destruct (core_processes (w_core w) !! PidID pid) as [p|] eqn:Ht.
  - destruct (w_heap w !! p) as [pr|] eqn:Hp.
    + destruct (deleteProcess_registered w pid p pr Ht Hp)
        as (w2 & Hrun & _ & _ & _ & Hempty & _ & Hheap).
      rewrite Hrun in H. injection H as <-. destruct Hinv as [_ Hb]. split.
      * unfold aliases_listed. rewrite Hempty. apply map_Forall_empty.
      * unfold heap_bounded in *. rewrite Hheap.
        replace (w_next_loc w2) with (w_next_loc w); [exact Hb|].
        revert Hrun. unfold deleteProcess. go_simpl. rewrite Ht, Hp.
        case_decide; simpl; by intros [= <-].
    + revert H. unfold deleteProcess. go_simpl. by rewrite Ht, Hp.
  - revert H. unfold deleteProcess. go_simpl. rewrite Ht. by intros [= <-].
Qed.

Lemma RouteSend_inv (from to : Pid) (message : Term) (w w' : world) r :
  RouteSend from to message w = Some (r, w') -> registry_inv w -> registry_inv w'.
Proof.
  unfold RouteSend. go_simpl. repeat case_decide; try by intros [= <- <-].
  - destruct (core_processes (w_core w) !! PidID to) as [p|]; [|by intros [= <- <-]].
    destruct (w_heap w !! p) as [pr|] eqn:Hp; [|discriminate].
    destruct (chan_try_send (proc_mailBox pr) (from, message)); [|by intros [= <- <-]].
    intros [= <- <-]. by apply (registry_inv_store w p pr).
  - destruct (core_processes (w_core w) !! PidID from) as [p|]; [|by intros [= <- <-]].
    destruct (GetConnection (core_network w.(w_core)) (PidNode to)); [|by intros [= <- <-]].
    intros [= <- <-]. by apply registry_inv_ext.
Qed.

Lemma process_exit_inv (cl : exit_closure) (from : Pid) (reason : string) (w w' : world) r :
  process_exit cl from reason w = Some (r, w') -> registry_inv w -> registry_inv w'.
Proof.
  unfold process_exit. go_simpl.
  destruct (ctx_Err (w_done w) (exit_processContext cl)); [by intros [= <- <-]|].
  destruct (w_heap w !! exit_process cl) as [p|] eqn:Hp; [|discriminate].
  destruct (chan_try_send (proc_gracefulExit p) (from, reason)) as [ch|];
    [|by intros [= <- <-]].
  simpl. rewrite lookup_insert_eq. simpl.
  destruct (proc_trapExit p).
  - intros [= <- <-]. by apply (registry_inv_store w _ p).
  - destruct (proc_kill p); [|discriminate]. simpl. intros [= <- <-] Hinv.
    apply (registry_inv_ext
             (w_set_heap (<[exit_process cl := proc_set_gracefulExit (Some ch) p]> (w_heap w)) w));
      [reflexivity..|].
    by apply (registry_inv_store w _ p).
Qed.

Lemma unregisterName_inv (name : string) (w w' : world) r :
  unregisterName name w = Some (r, w') -> registry_inv w -> registry_inv w'.
Proof.
  unfold unregisterName. go_simpl.
  destruct (core_names (w_core w) !! name); intros [= <- <-]; [|done].
  by apply registry_inv_ext.
Qed.

Lemma registerName_inv (name : string) (pid : Pid) (w w' : world) r :
  registerName name pid w = Some (r, w') -> registry_inv w -> registry_inv w'.
Proof.
  unfold registerName. go_simpl.
  destruct (core_names (w_core w) !! name); intros [= <- <-]; [done|].
  by apply registry_inv_ext.
Qed.

Lemma RouteSendReg_inv (from : Pid) (to : ProcessID) (message : Term) (w w' : world) r :
  RouteSendReg from to message w = Some (r, w') -> registry_inv w -> registry_inv w'.
Proof.
  unfold RouteSendReg, bind at 1, get_core.
  repeat case_decide; try by intros [= <- <-].
  - destruct (core_names (w_core w) !! ProcessIDName to) as [pid|];
      [apply RouteSend_inv | by intros [= <- <-]].
  - destruct (core_processes (w_core w) !! PidID from) as [p|]; [|by intros [= <- <-]].
    destruct (GetConnection (core_network w.(w_core)) (ProcessIDNode to));
      [|by intros [= <- <-]].
    go_simpl. intros [= <- <-]. by apply registry_inv_ext.
Qed.

Lemma RouteSendAlias_inv (from : Pid) (to : Alias) (message : Term) (w w' : world) r :
  RouteSendAlias from to message w = Some (r, w') -> registry_inv w -> registry_inv w'.
Proof.
  unfold RouteSendAlias, bind at 1, get_core.
  repeat case_decide; try by intros [= <- <-].
  - destruct (core_aliases (w_core w) !! to) as [p|]; [|by intros [= <- <-]].
    unfold bind, deref. destruct (w_heap w !! p) as [pr|]; [|discriminate].
    apply RouteSend_inv.
  - destruct (core_processes (w_core w) !! PidID from) as [p|]; [|by intros [= <- <-]].
    destruct (GetConnection (core_network w.(w_core)) (RefNode to));
      [|by intros [= <- <-]].
    go_simpl. intros [= <- <-]. by apply registry_inv_ext.
Qed.

(** ** Further facts about the operations above *)

(** A spawned process carries the node's name and creation in its pid, so a
    send from it passes the sender test of the routes. *)
Lemma newProcess_pid (name : string) (opts : processOptions) (w w' : world) (l : loc) :
  newProcess name opts w = Some ((Some l, None), w') ->
  ∃ pr, w_heap w' !! l = Some pr
    ∧ PidNode (proc_self pr) = core_nodename (w_core w')
    ∧ PidCreation (proc_self pr) = core_creation (w_core w').
Proof.
  unfold newProcess. intros H.
  destruct (opt_Context opts) as [uc|]; go_simpl;
    rewrite lookup_insert_eq in H; simpl in H;
    repeat case_decide; simpl in H; inversion H; subst; clear H; simpl;
    eexists; rewrite lookup_insert_eq; (split; [reflexivity|]); split; reflexivity.
Qed.

(** With the graceful-exit channel set to nil (as the clean-up sets it), the
    select of [exit] takes its default branch. *)
Lemma process_exit_nil_channel (w : world) (cl : exit_closure) (from : Pid)
    (reason : string) (p : process) :
  ctx_Err (w_done w) (exit_processContext cl) = false ->
  w_heap w !! exit_process cl = Some p ->
  proc_gracefulExit p = None ->
  process_exit cl from reason w = Some (Some ErrProcessBusy, w).
Proof.
  intros Halive Hp Hch. unfold process_exit. go_simpl.
  by rewrite Halive, Hp, Hch.
Qed.

(** Once the captured context is cancelled, [exit] refuses whatever the
    state of the channel. *)
Lemma process_exit_cancelled (w : world) (cl : exit_closure) (from : Pid) (reason : string) :
  ctx_Err (w_done w) (exit_processContext cl) = true ->
  process_exit cl from reason w = Some (Some ErrProcessUnknown, w).
Proof. intros Hdead. unfold process_exit. go_simpl. by rewrite Hdead. Qed.

(** The defensive branch of [deleteAlias]: reached only from a world that
    breaks [aliases_listed], it removes the table entry that its owner does
    not list and reports the alias as unknown. *)
Lemma deleteAlias_lost_alias (w : world) (owner p : loc) (ow pp : process) (alias : Alias) :
  w_heap w !! owner = Some ow ->
  core_aliases (w_core w) !! alias = Some p ->
  is_Some (core_processes (w_core w) !! PidID (proc_self ow)) ->
  w_heap w !! p = Some pp ->
  proc_self pp = proc_self ow ->
  alias ∉ proc_aliases pp ->
  deleteAlias owner alias w
  = Some (Some ErrAliasUnknown,
          w_set_core (core_set_aliases (delete alias (core_aliases (w_core w))) (w_core w)) w).
Proof.
  intros How Ha [q Ht] Hp Hself Hnot. apply alias_index_None in Hnot.
  unfold deleteAlias. go_simpl. rewrite How, Ha, Ht, Hp, Hnot.
  by case_decide.
Qed.

(** A lookup gives back only a process whose context is not cancelled. *)
Lemma ProcessByPid_alive (w w' : world) (pid : Pid) (l : loc) :
  ProcessByPid pid w = Some (Some l, w') ->
  w' = w ∧ core_processes (w_core w) !! PidID pid = Some l
  ∧ ∃ pr, w_heap w !! l = Some pr ∧ ctx_Err (w_done w) (proc_context pr) = false.
Proof.
  unfold ProcessByPid, IsAlive. go_simpl.
  destruct (core_processes (w_core w) !! PidID pid) as [p|]; [|discriminate].
  destruct (w_heap w !! p) as [pr|] eqn:Hp; [|discriminate]. simpl.
  destruct (ctx_Err (w_done w) (proc_context pr)) eqn:He; simpl; [discriminate|].
  intros [= <- <-]. eauto.
Qed.

Lemma ProcessByAlias_alive (w w' : world) (alias : Alias) (l : loc) :
  ProcessByAlias alias w = Some (Some l, w') ->
  w' = w ∧ core_aliases (w_core w) !! alias = Some l
  ∧ ∃ pr, w_heap w !! l = Some pr ∧ ctx_Err (w_done w) (proc_context pr) = false.
Proof.
  unfold ProcessByAlias, IsAlive. go_simpl.
  destruct (core_aliases (w_core w) !! alias) as [p|]; [|discriminate].
  destruct (w_heap w !! p) as [pr|] eqn:Hp; [|discriminate]. simpl.
  destruct (ctx_Err (w_done w) (proc_context pr)) eqn:He; simpl; [discriminate|].
  intros [= <- <-]. eauto.
Qed.

Lemma ProcessByName_alive (w w' : world) (name : string) (l : loc) :
  ProcessByName name w = Some (Some l, w') ->
  w' = w ∧ ∃ pr, w_heap w !! l = Some pr ∧ ctx_Err (w_done w) (proc_context pr) = false.
Proof.
  unfold ProcessByName, bind at 1, get_core. case_decide.
  - destruct (core_names (w_core w) !! name) as [pid|]; [|discriminate].
    intros Hrun. apply ProcessByPid_alive in Hrun as (-> & _ & Hpr). eauto.
  - intros Hrun. apply ProcessByPid_alive in Hrun as (-> & _ & Hpr). eauto.
Qed.

(** * Further properties of the code *)

(** ** Names, spawning and reaping *)

Lemma world_eta (w : world) :
  mkWorld (w_core w) (w_heap w) (w_done w) (w_sent w) (w_next_cell w) (w_next_loc w) = w.
Proof. by destruct w. Qed.

Lemma core_eta (c : core) :
  mkCore (core_network c) (core_ctx c) (core_stop c) (core_env c) (core_nextPID c)
    (core_uniqID c) (core_nodename c) (core_creation c) (core_names c) (core_aliases c)
    (core_processes c) = c.
Proof. by destruct c. Qed.

(** X1: a free name is bound by [registerName] to whatever pid is given; a
    second registration of the name is refused with [ErrTaken] and changes
    nothing; and [unregisterName] then gives back the world as it was before
    the registration. *)
Theorem registerName_unregisterName (name : string) (pid : Pid) (w : world) :
  core_names (w_core w) !! name = None ->
  ∃ w1, registerName name pid w = Some (None, w1)
    ∧ core_names (w_core w1) !! name = Some pid
    ∧ (∀ pid', registerName name pid' w1 = Some (Some ErrTaken, w1))
    ∧ unregisterName name w1 = Some (None, w).
Proof.
  intros Hfree. unfold registerName, unregisterName. go_simpl. rewrite Hfree.
  eexists. split; [reflexivity|]. proj_simpl. rewrite lookup_insert_eq.
  split; [reflexivity|]. split; [reflexivity|].
  destruct w as [c h d s nc nl]; destruct c; proj_simpl.
  unfold w_set_core, core_set_names; proj_simpl.
  by rewrite delete_insert_id.
Qed.

Lemma registerName_unregisterName_witness :
  ∃ w1, registerName "db" ex_pidQ ex_two = Some (None, w1)
    ∧ core_names (w_core w1) !! "db" = Some ex_pidQ
    ∧ unregisterName "db" w1 = Some (None, ex_two).
Proof.
  assert (Hfree : core_names (w_core ex_two) !! "db" = None) by (vm_compute; reflexivity).
  destruct (registerName_unregisterName "db" ex_pidQ ex_two Hfree) as (w1 & H1 & H2 & _ & H4).
  exists w1. auto.
Defined.

(** X2: spawning under a taken name fails with [ErrTaken] and leaves the
    name, process and alias tables as they were, yet the pid counter has
    advanced: the pid minted for the refused process is lost. *)
Theorem newProcess_name_taken (name : string) (opts : processOptions) (w : world) (q : Pid) :
  name ≠ "" ->
  core_names (w_core w) !! name = Some q ->
  ∃ w', newProcess name opts w = Some ((None, Some ErrTaken), w')
    ∧ core_names (w_core w') = core_names (w_core w)
    ∧ core_processes (w_core w') = core_processes (w_core w)
    ∧ core_aliases (w_core w') = core_aliases (w_core w)
    ∧ core_nextPID (w_core w') = uint64 (core_nextPID (w_core w) + 1)
    ∧ w_done w' = w_done w.
Proof.
  intros Hne Hq. unfold newProcess.
  destruct (opt_Context opts) as [uc|]; go_simpl;
    rewrite lookup_insert_eq; simpl;
    (case_decide as Hd; [|exfalso; apply Hd; eauto]);
    eexists; (split; [reflexivity|]); simpl; auto.
Qed.

Lemma newProcess_name_taken_witness :
  ∃ w', newProcess "svc" ex_opts ex_two = Some ((None, Some ErrTaken), w')
    ∧ core_processes (w_core w') = core_processes (w_core ex_two)
    ∧ core_nextPID (w_core w') = uint64 (core_nextPID (w_core ex_two) + 1).
Proof.
  assert (Hq : core_names (w_core ex_two) !! "svc" = Some ex_pidP) by (vm_compute; reflexivity).
  assert (Hne : "svc" ≠ "") by discriminate.
  destruct (newProcess_name_taken "svc" ex_opts ex_two ex_pidP Hne Hq)
    as (w' & H1 & _ & H3 & _ & H5 & _).
  exists w'. auto.
Defined.

Lemma uint64_small (z : Z) : 0 <= z < 2 ^ 64 -> uint64 z = z.
Proof. intros Hz. unfold uint64. by apply Z.mod_small. Qed.

(** X3: while the pid counter has not wrapped, [newProcess] under a free
    name (or no name) registers a new object under an id that no process of
    the table uses: the process table gains exactly that entry, the name
    table gains the name when there is one, the alias table is untouched, the
    object starts with empty mailbox and alias list and does not trap exits,
    and the bounds on ids and locations keep holding. *)
Theorem newProcess_fresh (name : string) (opts : processOptions) (w : world) :
  pids_bounded w ->
  heap_bounded w ->
  core_nextPID (w_core w) + 1 < 2 ^ 64 ->
  name = "" ∨ core_names (w_core w) !! name = None ->
  ∃ l pr w', newProcess name opts w = Some ((Some l, None), w')
    ∧ w_heap w !! l = None
    ∧ w_heap w' = <[l := pr]> (w_heap w)
    ∧ proc_self pr = mkPid (core_nodename (w_core w)) (core_nextPID (w_core w) + 1)
                       (core_creation (w_core w))
    ∧ proc_name pr = name
    ∧ proc_aliases pr = []
    ∧ proc_trapExit pr = false
    ∧ proc_mailBox pr
      = Some (make_chan (if decide (0 < opt_MailboxSize opts)
                         then Z.to_nat (opt_MailboxSize opts)
                         else DefaultProcessMailboxSize))
    ∧ core_processes (w_core w) !! (core_nextPID (w_core w) + 1) = None
    ∧ core_processes (w_core w')
      = <[core_nextPID (w_core w) + 1 := l]> (core_processes (w_core w))
    ∧ core_names (w_core w')
      = (if decide (name = "") then core_names (w_core w)
         else <[name := proc_self pr]> (core_names (w_core w)))
    ∧ core_aliases (w_core w') = core_aliases (w_core w)
    ∧ pids_bounded w' ∧ heap_bounded w'.
Proof.
  intros [Hstart Hpids] Hheap Hwrap Hname.
  assert (Hid : uint64 (core_nextPID (w_core w) + 1) = core_nextPID (w_core w) + 1).
  { apply uint64_small. unfold startPID in Hstart. lia. }
  assert (Hnew : core_processes (w_core w) !! (core_nextPID (w_core w) + 1) = None).
  { destruct (core_processes (w_core w) !! (core_nextPID (w_core w) + 1)) as [l|] eqn:Hl;
      [|reflexivity]. apply Hpids in Hl. simpl in Hl. lia. }
  assert (Hloc : w_heap w !! w_next_loc w = None).
  { destruct (w_heap w !! w_next_loc w) as [q|] eqn:Hq; [|reflexivity].
    apply Hheap in Hq. simpl in Hq. lia. }
  assert (Hnot : ¬ (name ≠ "" ∧ is_Some (core_names (w_core w) !! name))).
  { intros [Hne [q Hq]]. destruct Hname as [->|Hfree]; [done | congruence]. }
  unfold newProcess.
  destruct (opt_Context opts) as [uc|]; go_simpl;
    rewrite lookup_insert_eq; simpl;
    (destruct (decide (name ≠ "" ∧ is_Some (core_names (w_core w) !! name)));
       [contradiction|]);
    rewrite Hid;
    (destruct (decide (name ≠ "")) as [Hne|He]; simpl;
     eexists _, _, _; (split; [reflexivity|]); simpl;
     rewrite insert_insert_eq;
     repeat match goal with
       | |- _ ∧ _ => split
       end; try reflexivity; try assumption;
     try (destruct (decide (name = "")) as [->|?]; [done | reflexivity]);
     try (case_decide; [reflexivity | by apply dec_stable in He; subst]);
     try (split; simpl; [unfold startPID in *; lia|];
          apply map_Forall_insert_2; [unfold startPID in *; lia|];
          intros i x Hi; apply Hpids in Hi; simpl in Hi; lia);
     try (apply map_Forall_insert_2; simpl; [lia|];
          intros i x Hi; apply Hheap in Hi; simpl in Hi; lia)).
Qed.

Lemma newProcess_fresh_witness :
  ∃ l pr w', newProcess "db" ex_opts1 ex_two = Some ((Some l, None), w')
    ∧ proc_self pr = mkPid "node@host" 1003 7
    ∧ core_processes (w_core w') = <[1003 := l]> (core_processes (w_core ex_two))
    ∧ core_names (w_core w') !! "db" = Some (mkPid "node@host" 1003 7)
    ∧ pids_bounded w'.
Proof.
  assert (Hp : pids_bounded ex_two).
  { unfold pids_bounded. apply (bool_decide_unpack _). vm_compute. exact I. }
  assert (Hh : heap_bounded ex_two).
  { unfold heap_bounded. apply (bool_decide_unpack _). vm_compute. exact I. }
  assert (Hw : core_nextPID (w_core ex_two) + 1 < 2 ^ 64) by (vm_compute; reflexivity).
  assert (Hn : "db" = "" ∨ core_names (w_core ex_two) !! "db" = None)
    by (right; vm_compute; reflexivity).
  destruct (newProcess_fresh "db" ex_opts1 ex_two Hp Hh Hw Hn)
    as (l & pr & w' & H1 & _ & _ & H4 & _ & _ & _ & _ & _ & H10 & H11 & _ & H13 & _).
  exists l, pr, w'. split; [exact H1|]. split; [exact H4|]. split; [exact H10|].
  split; [|exact H13]. rewrite H11, H4. simpl. apply lookup_insert_eq.
Defined.

(** X4: what [deleteProcess] of a registered id does to the tables: the id
    leaves the process table; a name stays bound exactly when it is bound to
    another pid and is not the registered name of the reaped process (that
    name is deleted whoever holds it by now); heap, cancelled cells and
    counters are untouched. *)
Theorem deleteProcess_tables (w : world) (pid : Pid) (p : loc) (pr : process) :
  core_processes (w_core w) !! PidID pid = Some p ->
  w_heap w !! p = Some pr ->
  ∃ w', deleteProcess pid w = Some (tt, w')
    ∧ core_processes (w_core w') = delete (PidID pid) (core_processes (w_core w))
    ∧ (∀ n, core_names (w_core w') !! n
            = match core_names (w_core w) !! n with
              | Some q =>
                  if decide ((n = proc_name pr ∧ n ≠ "") ∨ q = proc_self pr)
                  then None else Some q
              | None => None
              end)
    ∧ w_heap w' = w_heap w
    ∧ w_done w' = w_done w
    ∧ w_sent w' = w_sent w
    ∧ core_nextPID (w_core w') = core_nextPID (w_core w)
    ∧ core_uniqID (w_core w') = core_uniqID (w_core w).
Proof.
  intros Ht Hp. unfold deleteProcess. go_simpl. rewrite Ht, Hp.
  destruct (decide (proc_name pr ≠ "")) as [Hn|Hn]; simpl;
    (eexists; split; [reflexivity|]); simpl; (split; [reflexivity|]);
    (split; [|done]); intros n; rewrite delete_names_of_lookup.
  - destruct (decide (proc_name pr = n)) as [<-|Hne].
    + rewrite lookup_delete_eq.
      destruct (core_names (w_core w) !! proc_name pr) as [q|]; [|done].
      by rewrite decide_True by auto.
    + rewrite lookup_delete_ne by done.
      destruct (core_names (w_core w) !! n) as [q|]; [|done].
      destruct (decide (proc_self pr = q)) as [<-|Hq].
      * by rewrite decide_True by auto.
      * rewrite decide_False; [done|]. intros [[-> _] | ->]; done.
  - apply dec_stable in Hn.
    destruct (core_names (w_core w) !! n) as [q|]; [|done].
    destruct (decide (proc_self pr = q)) as [<-|Hq].
    + by rewrite decide_True by auto.
    + rewrite decide_False; [done|]. intros [[-> Hnn] | ->]; [|done].
      by rewrite Hn in Hnn.
Qed.

(** A name is taken from Q when P, spawned as ["svc"], is reaped after the
    name has been handed over to Q. *)
Lemma deleteProcess_tables_witness :
  ∃ w', deleteProcess ex_pidP
          (after (registerName "svc" ex_pidQ) (after (unregisterName "svc") ex_two))
        = Some (tt, w')
    ∧ core_names (after (registerName "svc" ex_pidQ) (after (unregisterName "svc") ex_two)).(w_core)
        !! "svc" = Some ex_pidQ
    ∧ core_names (w_core w') !! "svc" = None
    ∧ core_processes (w_core w') !! 1002 = Some ex_locQ.
Proof.
  set (w := after (registerName "svc" ex_pidQ) (after (unregisterName "svc") ex_two)).
  assert (Hpr : ∃ pr, w_heap w !! ex_locP = Some pr ∧ proc_name pr = "svc"
                      ∧ proc_self pr = ex_pidP).
  { eexists. repeat split; vm_compute; reflexivity. }
  destruct Hpr as (pr & Hpr & Hname & Hself).
  assert (Ht : core_processes (w_core w) !! PidID ex_pidP = Some ex_locP)
    by (vm_compute; reflexivity).
  assert (Hn : core_names (w_core w) !! "svc" = Some ex_pidQ) by (vm_compute; reflexivity).
  assert (Hq : core_processes (w_core w) !! 1002 = Some ex_locQ) by (vm_compute; reflexivity).
  destruct (deleteProcess_tables w ex_pidP ex_locP pr Ht Hpr)
    as (w' & H1 & H2 & H3 & _).
  exists w'. split; [exact H1|]. split; [exact Hn|]. split.
  - rewrite H3, Hn, Hname. reflexivity.
  - rewrite H2. change (PidID ex_pidP) with 1001.
    rewrite lookup_delete_ne by discriminate. exact Hq.
Defined.

(** X5: [deleteProcess] looks its argument up by id and does nothing when
    the id is not registered, so reaping the same pid a second time changes
    nothing. *)
Theorem deleteProcess_twice (w w' : world) (pid : Pid) :
  deleteProcess pid w = Some (tt, w') ->
  deleteProcess pid w' = Some (tt, w').
Proof.
  intros H.
  assert (Hgone : core_processes (w_core w') !! PidID pid = None).
  { destruct (core_processes (w_core w) !! PidID pid) as [p|] eqn:Ht.
    - destruct (w_heap w !! p) as [pr|] eqn:Hp.
      + destruct (deleteProcess_registered w pid p pr Ht Hp) as (w2 & Hrun & Hd & _).
        rewrite Hrun in H. injection H as <-. rewrite Hd. apply lookup_delete_eq.
      + revert H. unfold deleteProcess. go_simpl. by rewrite Ht, Hp.
    - revert H. unfold deleteProcess. go_simpl. rewrite Ht. by intros [= <-]. }
  unfold deleteProcess. go_simpl. by rewrite Hgone.
Qed.

Lemma deleteProcess_twice_witness :
  deleteProcess ex_pidP ex_P_reaped = Some (tt, ex_P_reaped).
Proof.
  apply (deleteProcess_twice ex_two_alias). vm_compute. reflexivity.
Defined.

(** ** Aliases and references *)

Lemma MakeRef_run (w : world) :
  MakeRef w
  = Some (mkRef (core_nodename (w_core w)) (core_creation (w_core w))
            (uint64 (core_uniqID (w_core w) + 1) mod 2 ^ 18,
             Z.shiftr (uint64 (core_uniqID (w_core w) + 1)) 46, 0),
          w_set_core (core_set_uniqID (uint64 (core_uniqID (w_core w) + 1)) (w_core w)) w).
Proof.
  unfold MakeRef. go_simpl.
  rewrite uint64_idem, low18_mask, low18_fit, high_bits_fit by apply uint64_range.
  reflexivity.
Qed.

(** X6: [newAlias] for a process object whose id is registered mints the
    alias with [MakeRef], maps it to the object in the alias table and
    appends it to the object's alias list; from then on [IsAlias] holds and a
    send to the alias is the send to the owner's pid.  For an object whose
    id is not registered it returns [ErrProcessUnknown] with the zero alias
    and changes nothing, the reference counter included. *)
Theorem newAlias_spec (w : world) (p : loc) (pr : process) :
  w_heap w !! p = Some pr ->
  (core_processes (w_core w) !! PidID (proc_self pr) = None ->
     newAlias p w = Some ((mkRef "" 0 (0, 0, 0), Some ErrProcessUnknown), w))
  ∧ (is_Some (core_processes (w_core w) !! PidID (proc_self pr)) ->
     ∃ alias w', newAlias p w = Some ((alias, None), w')
       ∧ (fst <$> MakeRef w) = Some alias
       ∧ core_aliases (w_core w') = <[alias := p]> (core_aliases (w_core w))
       ∧ w_heap w' = <[p := proc_set_aliases (proc_aliases pr ++ [alias]) pr]> (w_heap w)
       ∧ core_processes (w_core w') = core_processes (w_core w)
       ∧ core_names (w_core w') = core_names (w_core w)
       ∧ IsAlias alias w' = Some (true, w')
       ∧ (∀ from m, RouteSendAlias from alias m w' = RouteSend from (proc_self pr) m w')).
Proof.
  intros Hp. split.
  - intros Ht. unfold newAlias. go_simpl. by rewrite Hp, Ht.
  - intros [reg Ht]. unfold newAlias, bind at 1 2, deref, get_core. rewrite Hp, Ht.
    unfold bind at 1. rewrite MakeRef_run. go_simpl. rewrite Hp.
    eexists _, _. split; [reflexivity|]. split; [reflexivity|].
    proj_simpl. repeat split.
    + unfold IsAlias. go_simpl. rewrite lookup_insert_eq.
      rewrite bool_decide_eq_true_2 by eauto. reflexivity.
    + intros from m. unfold RouteSendAlias. go_unfold. proj_simpl.
      destruct (decide (PidNode from ≠ core_nodename (w_core w))) as [Hne|He].
      * unfold RouteSend. go_unfold. proj_simpl. by rewrite decide_True.
      * rewrite decide_True by reflexivity. rewrite lookup_insert_eq.
        proj_simpl. by rewrite lookup_insert_eq.
Qed.

Lemma newAlias_spec_witness :
  ∃ alias w', newAlias ex_locQ ex_two = Some ((alias, None), w')
    ∧ core_aliases (w_core w') !! alias = Some ex_locQ
    ∧ IsAlias alias w' = Some (true, w').
Proof.
  assert (Hq : ∃ pr, w_heap ex_two !! ex_locQ = Some pr ∧ PidID (proc_self pr) = 1002).
  { eexists. split; vm_compute; reflexivity. }
  destruct Hq as (pr & Hpr & Hid).
  destruct (newAlias_spec ex_two ex_locQ pr Hpr) as [_ Hreg].
  destruct Hreg as (alias & w' & H1 & _ & H3 & _ & _ & _ & H7 & _).
  { rewrite Hid. vm_compute. eauto. }
  exists alias, w'. split; [exact H1|]. split; [|exact H7].
  rewrite H3. apply lookup_insert_eq.
Defined.

Lemma alias_remove_at_Permutation (a : Alias) (l : list Alias) (i : nat) :
  l !! i = Some a -> l ≡ₚ a :: alias_remove_at i l.
Proof.
  unfold alias_remove_at. destruct l as [|a0 t]; [done|].
  destruct i as [|j]; simpl.
  - intros [= ->]. by rewrite drop_0.
  - rewrite drop_0. revert j. induction t as [|b t IH]; intros j; [done|].
    destruct j as [|j]; simpl.
    + intros [= ->]. apply perm_swap.
    + intros Hj. rewrite (perm_swap b a0), (IH j Hj). apply perm_swap.
Qed.

(** X7: when the owner deletes one of its aliases, [deleteAlias] returns
    nil, removes the alias from the table and takes exactly one occurrence of
    it out of the owner's list (the others are kept, possibly in another
    order); the other tables are untouched, [IsAlias] no longer holds and a
    local send to the alias finds no process. *)
Theorem deleteAlias_removes (w : world) (owner p : loc) (ow pp : process) (alias : Alias) :
  w_heap w !! owner = Some ow ->
  core_aliases (w_core w) !! alias = Some p ->
  is_Some (core_processes (w_core w) !! PidID (proc_self ow)) ->
  w_heap w !! p = Some pp ->
  proc_self pp = proc_self ow ->
  alias ∈ proc_aliases pp ->
  ∃ al' w', deleteAlias owner alias w = Some (None, w')
    ∧ core_aliases (w_core w') = delete alias (core_aliases (w_core w))
    ∧ w_heap w' = <[p := proc_set_aliases al' pp]> (w_heap w)
    ∧ proc_aliases pp ≡ₚ alias :: al'
    ∧ core_processes (w_core w') = core_processes (w_core w)
    ∧ core_names (w_core w') = core_names (w_core w)
    ∧ IsAlias alias w' = Some (false, w')
    ∧ (∀ from m, PidNode from = core_nodename (w_core w) ->
                 RefNode alias = core_nodename (w_core w) ->
                 RouteSendAlias from alias m w' = Some (Some ErrProcessUnknown, w')).
Proof.
  intros How Ha [reg Ht] Hp Hself Hin.
  destruct (alias_index alias (proc_aliases pp)) as [i|] eqn:Hi;
    [|by apply alias_index_None in Hi].
  unfold deleteAlias. go_simpl. rewrite How, Ha, Ht, Hp, Hi.
  rewrite decide_True by exact Hself.
  eexists _, _. split; [reflexivity|]. proj_simpl.
  split; [reflexivity|]. split; [reflexivity|].
  split; [by apply alias_remove_at_Permutation, alias_index_lookup|].
  split; [reflexivity|]. split; [reflexivity|]. split.
  - unfold IsAlias. go_simpl. rewrite lookup_delete_eq.
    rewrite bool_decide_eq_false_2; [reflexivity|]. by intros [? ?].
  - intros from m Hfrom Hnode. unfold RouteSendAlias. go_simpl.
    rewrite decide_False by (intros Hne; by apply Hne).
    rewrite decide_True by exact Hnode. by rewrite lookup_delete_eq.
Qed.

Lemma deleteAlias_removes_witness :
  ∃ al' w', deleteAlias ex_locQ ex_alias ex_two_alias = Some (None, w')
    ∧ [ex_alias] ≡ₚ ex_alias :: al'
    ∧ RouteSendAlias ex_pidP ex_alias (TermInt 42) w' = Some (Some ErrProcessUnknown, w').
Proof.
  assert (Hq : ∃ oq, w_heap ex_two_alias !! ex_locQ = Some oq
                     ∧ PidID (proc_self oq) = 1002 ∧ proc_aliases oq = [ex_alias]).
  { eexists. repeat split; vm_compute; reflexivity. }
  destruct Hq as (oq & Hoq & Hid & Hal).
  assert (Ha : core_aliases (w_core ex_two_alias) !! ex_alias = Some ex_locQ)
    by (vm_compute; reflexivity).
  assert (Ht : is_Some (core_processes (w_core ex_two_alias) !! PidID (proc_self oq))).
  { rewrite Hid. vm_compute. eauto. }
  assert (Hin : ex_alias ∈ proc_aliases oq).
  { rewrite Hal. apply list_elem_of_singleton. reflexivity. }
  destruct (deleteAlias_removes ex_two_alias ex_locQ ex_locQ oq oq ex_alias
              Hoq Ha Ht Hoq eq_refl Hin) as (al' & w' & H1 & _ & _ & H4 & _ & _ & _ & H8).
  exists al', w'. split; [exact H1|]. split; [by rewrite <- Hal|].
  apply H8; vm_compute; reflexivity.
Defined.

Lemma after_MakeRef (w : world) :
  after MakeRef w
  = w_set_core (core_set_uniqID (uint64 (core_uniqID (w_core w) + 1)) (w_core w)) w.
Proof. unfold after. by rewrite MakeRef_run. Qed.

(** The world after [n] calls of [MakeRef]: the counter has advanced by [n]
    (while it does not wrap), name and creation stand. *)
Lemma iter_MakeRef (n : nat) (w : world) :
  0 <= core_uniqID (w_core w) ->
  core_uniqID (w_core w) + Z.of_nat n < 2 ^ 64 ->
  core_uniqID (w_core (Nat.iter n (after MakeRef) w)) = core_uniqID (w_core w) + Z.of_nat n
  ∧ core_nodename (w_core (Nat.iter n (after MakeRef) w)) = core_nodename (w_core w)
  ∧ core_creation (w_core (Nat.iter n (after MakeRef) w)) = core_creation (w_core w).
Proof.
  intros H0. induction n as [|n IH]; intros Hn.
  - simpl. repeat split. lia.
  - destruct IH as (IH1 & IH2 & IH3); [lia|].
    change (Nat.iter (S n) (after MakeRef) w)
      with (after MakeRef (Nat.iter n (after MakeRef) w)).
    rewrite after_MakeRef. proj_simpl. rewrite IH1, IH2, IH3.
    repeat split. rewrite uint64_small by lia. lia.
Qed.

Lemma mod_window_distinct (a b m : Z) : 0 < m -> 0 < b - a < m -> a mod m ≠ b mod m.
Proof.
  intros Hm Hd Heq.
  assert (H : (b - a) mod m = 0).
  { rewrite Zminus_mod, Heq, Z.sub_diag. by apply Z.mod_0_l, Z.neq_sym, Z.lt_neq. }
  rewrite Z.mod_small in H by lia. lia.
Qed.

(** X8: within one incarnation, a reference differs from every reference
    minted fewer than 2^18 calls of [MakeRef] earlier (while the 64-bit
    counter does not wrap). *)
Theorem MakeRef_distinct_in_window (w : world) (n : nat) :
  0 <= core_uniqID (w_core w) ->
  (0 < n)%nat ->
  Z.of_nat n < 2 ^ 18 ->
  core_uniqID (w_core w) + Z.of_nat n + 1 < 2 ^ 64 ->
  (fst <$> MakeRef (Nat.iter n (after MakeRef) w)) ≠ (fst <$> MakeRef w).
Proof.
  intros H0 Hn Hwin Hwrap.
  destruct (iter_MakeRef n w H0) as (Hu & _ & _); [lia|].
  remember (Nat.iter n (after MakeRef) w) as wn eqn:Hwn. clear Hwn.
  rewrite !MakeRef_run. cbn [fmap option_fmap option_map fst]. rewrite Hu.
  rewrite !uint64_small by lia.
  intros [= _ _ Hw0 _]. revert Hw0. apply Z.neq_sym, mod_window_distinct; lia.
Qed.

Lemma MakeRef_distinct_in_window_witness :
  (fst <$> MakeRef (Nat.iter 3 (after MakeRef) ex_node)) ≠ (fst <$> MakeRef ex_node).
Proof.
  apply (MakeRef_distinct_in_window ex_node 3);
    [vm_compute; discriminate | lia | vm_compute; reflexivity | vm_compute; reflexivity].
Defined.

(** X9: the mint drops bits 18 to 45 of the counter, so references repeat:
    after 2^18 further calls [MakeRef] returns the same reference again,
    unless the counter has crossed a multiple of 2^46 in between. *)
Theorem MakeRef_repeats (w : world) :
  0 <= core_uniqID (w_core w) ->
  core_uniqID (w_core w) + 2 ^ 18 + 1 < 2 ^ 64 ->
  (core_uniqID (w_core w) + 1) / 2 ^ 46 = (core_uniqID (w_core w) + 1 + 2 ^ 18) / 2 ^ 46 ->
  (fst <$> MakeRef (Nat.iter (Z.to_nat (2 ^ 18)) (after MakeRef) w)) = (fst <$> MakeRef w).
Proof.
  intros H0 Hwrap Hhigh.
  destruct (iter_MakeRef (Z.to_nat (2 ^ 18)) w H0) as (Hu & Hn & Hc);
    [rewrite Z2Nat.id by lia; lia|].
  rewrite Z2Nat.id in Hu by lia.
  remember (Nat.iter (Z.to_nat (2 ^ 18)) (after MakeRef) w) as wn eqn:Hwn. clear Hwn.
  rewrite !MakeRef_run. cbn [fmap option_fmap option_map fst]. rewrite Hu, Hn, Hc.
  rewrite !uint64_small by lia.
  rewrite !Z.shiftr_div_pow2 by lia.
  replace (core_uniqID (w_core w) + 2 ^ 18 + 1) with (core_uniqID (w_core w) + 1 + 2 ^ 18)
    by lia.
  rewrite <- Hhigh.
  replace ((core_uniqID (w_core w) + 1 + 2 ^ 18) mod 2 ^ 18)
    with ((core_uniqID (w_core w) + 1) mod 2 ^ 18); [reflexivity|].
  replace (core_uniqID (w_core w) + 1 + 2 ^ 18)
    with (core_uniqID (w_core w) + 1 + 1 * 2 ^ 18) by lia.
  by rewrite Z.mod_add by lia.
Qed.

Lemma MakeRef_repeats_witness :
  (fst <$> MakeRef (Nat.iter (Z.to_nat (2 ^ 18)) (after MakeRef) ex_node))
  = (fst <$> MakeRef ex_node).
Proof.
  apply (MakeRef_repeats ex_node);
    [vm_compute; discriminate | vm_compute; reflexivity | vm_compute; reflexivity].
Defined.

(** ** Routing *)

(** X10: a local send with room in the mailbox returns nil and appends
    [(from, message)] behind the messages already queued; nothing else in
    the world changes, and neither the target's context nor the presence of
    [from] in the process table is consulted.  A second send with room is
    queued behind the first, whoever sends it. *)
Theorem RouteSend_local (w : world) (from to : Pid) (message : Term)
    (p : loc) (pr : process) (mb : chan (Pid * Term)) :
  PidNode from = core_nodename (w_core w) ->
  PidNode to = core_nodename (w_core w) ->
  PidCreation to = core_creation (w_core w) ->
  core_processes (w_core w) !! PidID to = Some p ->
  w_heap w !! p = Some pr ->
  proc_mailBox pr = Some mb ->
  (length (chan_buf mb) < chan_cap mb)%nat ->
  RouteSend from to message w
  = Some (None,
          w_set_heap
            (<[p := proc_set_mailBox
                      (Some (mkChan (chan_buf mb ++ [(from, message)]) (chan_cap mb))) pr]>
               (w_heap w)) w)
  ∧ (∀ from' message',
       PidNode from' = core_nodename (w_core w) ->
       (S (length (chan_buf mb)) < chan_cap mb)%nat ->
       (RouteSend from to message ;;; RouteSend from' to message') w
       = Some (None,
               w_set_heap
                 (<[p := proc_set_mailBox
                           (Some (mkChan (chan_buf mb ++ [(from, message); (from', message')])
                                    (chan_cap mb))) pr]>
                    (w_heap w)) w)).
Proof.
  intros Hfrom Hto Hcr Ht Hp Hmb Hroom.
  assert (Hone : ∀ (v : world) f m q (b : chan (Pid * Term)),
             w_core v = w_core w -> PidNode f = core_nodename (w_core w) ->
             w_heap v !! p = Some q -> proc_mailBox q = Some b ->
             (length (chan_buf b) < chan_cap b)%nat ->
             RouteSend f to m v
             = Some (None,
                     w_set_heap
                       (<[p := proc_set_mailBox
                                 (Some (mkChan (chan_buf b ++ [(f, m)]) (chan_cap b))) q]>
                          (w_heap v)) v)).
  { intros v f m q b Hc Hf Hq Hb Hr. unfold RouteSend. go_unfold. rewrite Hc.
    rewrite decide_False by (intros Hne; by apply Hne).
    rewrite decide_True by exact Hto.
    rewrite decide_False by (intros Hne; by apply Hne).
    rewrite Ht, Hq, Hb, chan_try_send_room by exact Hr. reflexivity. }
  split; [by apply Hone|].
  intros from' message' Hfrom' Hroom'. unfold bind at 1.
  rewrite (Hone w from message pr mb) by done.
  set (b1 := mkChan (chan_buf mb ++ [(from, message)]) (chan_cap mb)).
  set (q1 := proc_set_mailBox (Some b1) pr).
  rewrite (Hone (w_set_heap (<[p := q1]> (w_heap w)) w) from' message' q1 b1).
  - unfold w_set_heap. proj_simpl. rewrite insert_insert_eq.
    subst q1 b1. unfold proc_set_mailBox. cbn [chan_buf chan_cap]. proj_simpl.
    by rewrite <- app_assoc.
  - reflexivity.
  - exact Hfrom'.
  - proj_simpl. apply lookup_insert_eq.
  - reflexivity.
  - subst b1. cbn [chan_buf chan_cap]. rewrite length_app. simpl. lia.
Qed.

Lemma RouteSend_local_witness :
  (RouteSend ex_pidQ ex_pidP (TermInt 1) ;;; RouteSend ex_pidP ex_pidP (TermInt 2)) ex_two
  = Some (None,
          w_set_heap
            (<[ex_locP :=
                 proc_set_mailBox
                   (Some (mkChan [(ex_pidQ, TermInt 1); (ex_pidP, TermInt 2)] 100%nat))
                   (mkProcess ex_pidP "svc" ∅ None None
                      (Some (mkChan [] 100%nat)) (Some (mkChan [] 100%nat))
                      false [1%nat; 0%nat] (Some 1%nat)
                      (Some (mkExit [1%nat; 0%nat] ex_locP)) [])]>
               (w_heap ex_two)) ex_two).
Proof.
  refine (proj2 (RouteSend_local ex_two ex_pidQ ex_pidP (TermInt 1) ex_locP
                   (mkProcess ex_pidP "svc" ∅ None None
                      (Some (mkChan [] 100%nat)) (Some (mkChan [] 100%nat))
                      false [1%nat; 0%nat] (Some 1%nat)
                      (Some (mkExit [1%nat; 0%nat] ex_locP)) [])
                   (mkChan [] 100%nat) _ _ _ _ _ _ _) ex_pidP (TermInt 2) _ _);
    try (vm_compute; reflexivity); simpl; lia.
Defined.



(** ** Exit signals, contexts and the stop of the node *)

Lemma ctx_Err_true (d : gset cell) (k : context) :
  ctx_Err d k = true <-> ∃ c, c ∈ k ∧ c ∈ d.
Proof.
  unfold ctx_Err. rewrite existsb_exists. split.
  - intros (c & Hc & Hd). exists c. split; [by apply list_elem_of_In|].
    by apply bool_decide_eq_true in Hd.
  - intros (c & Hc & Hd). exists c. split; [by apply list_elem_of_In|].
    by apply bool_decide_eq_true.
Qed.

Lemma ctx_Err_false (d : gset cell) (k : context) :
  ctx_Err d k = false <-> ∀ c, c ∈ k -> c ∉ d.
Proof.
  rewrite <- not_true_iff_false, ctx_Err_true. split.
  - intros Hn c Hc Hd. apply Hn. eauto.
  - intros Hall (c & Hc & Hd). by apply (Hall c).
Qed.

(** The object a successful [newProcess] leaves in the heap. *)
Lemma newProcess_object (name : string) (opts : processOptions) (w w' : world) (l : loc) :
  newProcess name opts w = Some ((Some l, None), w') ->
  let pc := match opt_Context opts with
            | Some uc => S (w_next_cell w) :: uc
            | None => w_next_cell w :: core_ctx (w_core w)
            end in
  let n := if decide (0 < opt_MailboxSize opts) then Z.to_nat (opt_MailboxSize opts)
           else DefaultProcessMailboxSize in
  l = w_next_loc w
  ∧ w_done w' = w_done w
  ∧ w_heap w'
    = <[l := mkProcess
               (mkPid (core_nodename (w_core w)) (uint64 (core_nextPID (w_core w) + 1))
                  (core_creation (w_core w)))
               name (opt_Env opts ∪ core_env (w_core w)) (opt_parent opts)
               (opt_GroupLeader opts) (Some (make_chan n)) (Some (make_chan n)) false pc
               (Some (w_next_cell w)) (Some (mkExit pc l)) []]> (w_heap w)
  ∧ (0 < n)%nat.
Proof.
  unfold newProcess. intros H.
  destruct (opt_Context opts) as [uc|]; go_simpl;
    rewrite lookup_insert_eq in H; simpl in H;
    repeat case_decide; simpl in H; inversion H; subst; clear H; simpl;
    rewrite insert_insert_eq; repeat split; unfold DefaultProcessMailboxSize; lia.
Qed.

Lemma call_exit_run (w : world) (l : loc) (pr : process) (cl : exit_closure)
    (from : Pid) (reason : string) :
  w_heap w !! l = Some pr ->
  proc_exit pr = Some cl ->
  call_exit l from reason w = process_exit cl from reason w.
Proof. intros Hl Hcl. unfold call_exit. go_unfold. by rewrite Hl, Hcl. Qed.

Lemma process_exit_queues (w : world) (cl : exit_closure) (from : Pid) (reason : string)
    (p : process) (ch : chan (Pid * string)) (k : cell) :
  ctx_Err (w_done w) (exit_processContext cl) = false ->
  w_heap w !! exit_process cl = Some p ->
  proc_gracefulExit p = Some ch ->
  (length (chan_buf ch) < chan_cap ch)%nat ->
  proc_trapExit p = false ->
  proc_kill p = Some k ->
  process_exit cl from reason w
  = Some (None,
          w_set_done ({[k]} ∪ w_done w)
            (w_set_heap
               (<[exit_process cl :=
                    proc_set_gracefulExit
                      (Some (mkChan (chan_buf ch ++ [(from, reason)]) (chan_cap ch))) p]>
                  (w_heap w)) w)).
Proof.
  intros Halive Hp Hch Hroom Htrap Hk. unfold process_exit. go_unfold.
  rewrite Halive, Hp, Hch, chan_try_send_room by exact Hroom.
  proj_simpl. rewrite lookup_insert_eq. proj_simpl. by rewrite Htrap, Hk.
Qed.

(** X12: a process spawned from the node's context (no context in the
    options) and not yet trapping exits is cancelled by its first exit
    signal: the record is queued, the kill handle cancels the process
    context, and every later exit signal is refused with [ErrProcessUnknown]
    and changes nothing. *)
Theorem exit_cancels_process (name : string) (opts : processOptions) (w w1 : world)
    (l : loc) (from : Pid) (reason : string) :
  opt_Context opts = None ->
  newProcess name opts w = Some ((Some l, None), w1) ->
  ctx_Err (w_done w) (core_ctx (w_core w)) = false ->
  w_next_cell w ∉ w_done w ->
  ∃ w2 pr2, call_exit l from reason w1 = Some (None, w2)
    ∧ w_heap w2 !! l = Some pr2
    ∧ (chan_buf <$> proc_gracefulExit pr2) = Some [(from, reason)]
    ∧ ctx_Err (w_done w2) (proc_context pr2) = true
    ∧ (∀ from' reason', call_exit l from' reason' w2 = Some (Some ErrProcessUnknown, w2)).
Proof.
  intros Hopt Hnew Hnode Hfresh.
  destruct (newProcess_object name opts w w1 l Hnew) as (Hl & Hdone & Hheap & Hn).
  rewrite Hopt in Hheap.
  assert (Halive : ctx_Err (w_done w1) (w_next_cell w :: core_ctx (w_core w)) = false).
  { rewrite Hdone. apply ctx_Err_false. intros c Hc.
    apply elem_of_cons in Hc as [->|Hc]; [exact Hfresh|].
    by apply (proj1 (ctx_Err_false _ _) Hnode). }
  set (pc := w_next_cell w :: core_ctx (w_core w)) in *.
  match type of Hheap with _ = <[_ := ?q]> _ => set (pr := q) in * end.
  assert (Hpr : w_heap w1 !! l = Some pr) by (rewrite Hheap; apply lookup_insert_eq).
  rewrite (call_exit_run w1 l pr (mkExit pc l)) by done.
  rewrite (process_exit_queues w1 (mkExit pc l) from reason pr _ (w_next_cell w)
             Halive Hpr eq_refl) by (simpl; first [done | lia]).
  eexists _, _. split; [reflexivity|]. proj_simpl. cbn [exit_process].
  rewrite lookup_insert_eq.
  split; [reflexivity|]. split; [reflexivity|].
  assert (Hdead : ctx_Err ({[w_next_cell w]} ∪ w_done w1) pc = true).
  { apply ctx_Err_true. exists (w_next_cell w).
    split; [left | by apply elem_of_union_l, elem_of_singleton]. }
  split; [exact Hdead|].
  intros from' reason'.
  erewrite call_exit_run;
    [| proj_simpl; cbn [exit_process]; apply lookup_insert_eq | reflexivity].
  by apply process_exit_cancelled.
Qed.

Lemma exit_cancels_process_witness :
  ∃ w1 w2 pr2, newProcess "db" ex_opts ex_two = Some ((Some 2%nat, None), w1)
    ∧ call_exit 2%nat ex_pidP "kill" w1 = Some (None, w2)
    ∧ w_heap w2 !! 2%nat = Some pr2
    ∧ ctx_Err (w_done w2) (proc_context pr2) = true
    ∧ call_exit 2%nat ex_pidP "again" w2 = Some (Some ErrProcessUnknown, w2).
Proof.
  assert (Hnew : ∃ w1, newProcess "db" ex_opts ex_two = Some ((Some 2%nat, None), w1)).
  { eexists. vm_compute. reflexivity. }
  destruct Hnew as (w1 & Hnew).
  destruct (exit_cancels_process "db" ex_opts ex_two w1 2%nat ex_pidP "kill")
    as (w2 & pr2 & H1 & H2 & _ & H4 & H5);
    [reflexivity | exact Hnew | vm_compute; reflexivity
    | apply (bool_decide_unpack _); vm_compute; exact I |].
  exists w1, w2, pr2. repeat split; auto.
Defined.

(** X13: when the options carry a context, the process context is derived
    from it, while the kill handle stays the cancel function of the context
    derived from the node's.  An exit signal to such a process (not trapping
    exits) is queued and invokes the kill handle, yet the process context is
    not cancelled, and a later exit signal is not refused as
    [ErrProcessUnknown]. *)
Theorem exit_with_options_context (name : string) (opts : processOptions) (uc : context)
    (w w1 : world) (l : loc) (from : Pid) (reason : string) :
  opt_Context opts = Some uc ->
  newProcess name opts w = Some ((Some l, None), w1) ->
  ctx_Err (w_done w) uc = false ->
  w_next_cell w ∉ uc ->
  S (w_next_cell w) ∉ w_done w ->
  ∃ w2 pr2, call_exit l from reason w1 = Some (None, w2)
    ∧ w_heap w2 !! l = Some pr2
    ∧ proc_kill pr2 = Some (w_next_cell w)
    ∧ w_next_cell w ∈ w_done w2
    ∧ (chan_buf <$> proc_gracefulExit pr2) = Some [(from, reason)]
    ∧ ctx_Err (w_done w2) (proc_context pr2) = false
    ∧ (∀ from' reason',
         (fst <$> call_exit l from' reason' w2) ≠ Some (Some ErrProcessUnknown)).
Proof.
  intros Hopt Hnew Huc Hnotin Hfresh.
  destruct (newProcess_object name opts w w1 l Hnew) as (Hl & Hdone & Hheap & Hn).
  rewrite Hopt in Hheap.
  assert (Halive : ∀ d, (∀ c, c ∈ d -> c = w_next_cell w ∨ c ∈ w_done w) ->
                        ctx_Err d (S (w_next_cell w) :: uc) = false).
  { intros d Hd. apply ctx_Err_false. intros c Hc Hcd.
    apply Hd in Hcd as [->|Hcd].
    - apply elem_of_cons in Hc as [Hc|Hc]; [lia | contradiction].
    - apply elem_of_cons in Hc as [->|Hc]; [contradiction|].
      by apply (proj1 (ctx_Err_false _ _) Huc c). }
  set (pc := S (w_next_cell w) :: uc) in *.
  match type of Hheap with _ = <[_ := ?q]> _ => set (pr := q) in * end.
  assert (Hpr : w_heap w1 !! l = Some pr) by (rewrite Hheap; apply lookup_insert_eq).
  assert (Halive1 : ctx_Err (w_done w1) (exit_processContext (mkExit pc l)) = false).
  { apply Halive. rewrite Hdone. auto. }
  rewrite (call_exit_run w1 l pr (mkExit pc l)) by done.
  rewrite (process_exit_queues w1 (mkExit pc l) from reason pr _ (w_next_cell w)
             Halive1 Hpr eq_refl) by (simpl; first [done | lia]).
  eexists _, _. split; [reflexivity|]. proj_simpl. cbn [exit_process].
  rewrite lookup_insert_eq.
  split; [reflexivity|]. split; [reflexivity|].
  split; [by apply elem_of_union_l, elem_of_singleton|].
  split; [reflexivity|].
  assert (Hstill : ctx_Err ({[w_next_cell w]} ∪ w_done w1) pc = false).
  { apply Halive. rewrite Hdone. intros c Hc.
    apply elem_of_union in Hc as [Hc|Hc]; [left; by apply elem_of_singleton in Hc | by right]. }
  split; [exact Hstill|].
  intros from' reason'.
  erewrite call_exit_run;
    [| proj_simpl; cbn [exit_process]; apply lookup_insert_eq | reflexivity].
  unfold process_exit. go_unfold. proj_simpl. cbn [exit_processContext exit_process].
  rewrite Hstill. proj_simpl. rewrite lookup_insert_eq. proj_simpl.
  destruct (chan_try_send _ _); [|discriminate].
  proj_simpl. rewrite lookup_insert_eq. proj_simpl. discriminate.
Qed.

Lemma exit_with_options_context_witness :
  ∃ w1 w2 pr2,
    newProcess "db" (mkOptions 0 (Some [0%nat]) ∅ None None) ex_two
    = Some ((Some 2%nat, None), w1)
    ∧ call_exit 2%nat ex_pidP "kill" w1 = Some (None, w2)
    ∧ w_heap w2 !! 2%nat = Some pr2
    ∧ proc_kill pr2 = Some 3%nat ∧ 3%nat ∈ w_done w2
    ∧ ctx_Err (w_done w2) (proc_context pr2) = false.
Proof.
  assert (Hnew : ∃ w1, newProcess "db" (mkOptions 0 (Some [0%nat]) ∅ None None) ex_two
                       = Some ((Some 2%nat, None), w1)).
  { eexists. vm_compute. reflexivity. }
  destruct Hnew as (w1 & Hnew).
  destruct (exit_with_options_context "db" (mkOptions 0 (Some [0%nat]) ∅ None None) [0%nat]
              ex_two w1 2%nat ex_pidP "kill")
    as (w2 & pr2 & H1 & H2 & H3 & H4 & _ & H6 & _);
    [reflexivity | exact Hnew | vm_compute; reflexivity
    | apply (bool_decide_unpack _); vm_compute; exact I
    | apply (bool_decide_unpack _); vm_compute; exact I |].
  exists w1, w2, pr2. repeat split; auto.
Defined.

(** X14: [coreStop] cancels the core's context: afterwards [coreIsAlive]
    answers false, and the exit capability of every process whose context
    derives from the node's refuses with [ErrProcessUnknown].  The network's
    own stop is assumed to keep the cancelled cells cancelled. *)
Theorem coreStop_cancels (stopNetwork : M unit) (w w' : world) :
  core_stop (w_core w) ∈ core_ctx (w_core w) ->
  (∀ v r v', stopNetwork v = Some (r, v') ->
             w_core v' = w_core v ∧ (∀ c, c ∈ w_done v -> c ∈ w_done v')) ->
  coreStop stopNetwork w = Some (tt, w') ->
  coreIsAlive w' = Some (false, w')
  ∧ (∀ cl from reason,
       core_stop (w_core w) ∈ exit_processContext cl ->
       process_exit cl from reason w' = Some (Some ErrProcessUnknown, w')).
Proof.
  intros Hin Hnet. unfold coreStop. go_unfold.
  destruct (stopNetwork _) as [[[] v']|] eqn:Hstop; [|discriminate].
  intros [= <-]. apply Hnet in Hstop as [Hcore Hdone]. proj_simpl.
  assert (Hc : core_stop (w_core w) ∈ w_done v').
  { apply Hdone. by apply elem_of_union_l, elem_of_singleton. }
  split.
  - unfold coreIsAlive. go_unfold. rewrite Hcore.
    replace (ctx_Err (w_done v') (core_ctx (w_core w))) with true; [reflexivity|].
    symmetry. apply ctx_Err_true. eauto.
  - intros cl from reason Hcl. apply process_exit_cancelled, ctx_Err_true. eauto.
Qed.

Lemma coreStop_cancels_witness :
  ∃ w', coreStop (ret tt) ex_two = Some (tt, w')
    ∧ coreIsAlive ex_two = Some (true, ex_two)
    ∧ coreIsAlive w' = Some (false, w')
    ∧ process_exit (mkExit [1%nat; 0%nat] ex_locP) ex_pidQ "stop" w'
      = Some (Some ErrProcessUnknown, w').
Proof.
  assert (Hrun : ∃ w', coreStop (ret tt) ex_two = Some (tt, w')).
  { eexists. vm_compute. reflexivity. }
  destruct Hrun as (w' & Hrun).
  destruct (coreStop_cancels (ret tt) ex_two w') as (H1 & H2);
    [apply (bool_decide_unpack _); vm_compute; exact I
    | intros v r v' [= _ <-]; auto
    | exact Hrun |].
  exists w'. split; [exact Hrun|]. split; [vm_compute; reflexivity|].
  split; [exact H1|]. apply H2. apply (bool_decide_unpack _). vm_compute. exact I.
Defined.

(** The core's cancel cell heads the core's context from the start, and a
    process spawned without a context of its own runs in a context that
    contains the core's. *)
Lemma newCore_stop_in_ctx ctx nodename Creation now newNetwork done k (w : world) :
  newCore ctx nodename Creation now newNetwork done k = inl w ->
  core_stop (w_core w) ∈ core_ctx (w_core w).
Proof.
  unfold newCore. destruct (newNetwork _); [|discriminate].
  intros [= <-]. simpl. left.
Qed.

(** ** The list of processes *)

(** X15: [ProcessList] returns, without changing anything, one entry per id
    of the process table: exactly the registered objects, whether or not
    their context is cancelled. *)
Theorem ProcessList_spec (w : world) :
  ∃ ps, ProcessList w = Some (ps, w)
    ∧ length ps = size (core_processes (w_core w))
    ∧ (∀ l, l ∈ ps <-> ∃ id, core_processes (w_core w) !! id = Some l).
Proof.
  unfold ProcessList. go_unfold. eexists. split; [reflexivity|]. split.
  - by rewrite length_fmap, length_map_to_list.
  - intros l. rewrite list_elem_of_fmap. split.
    + intros ([id l'] & -> & Hin). exists id. by apply elem_of_map_to_list.
    + intros (id & Hid). exists (id, l). split; [reflexivity|].
      by apply elem_of_map_to_list.
Qed.

(** ** Spawning under a name and sending by name *)

(** The tables a successful [newProcess] leaves behind. *)
Lemma newProcess_core (name : string) (opts : processOptions) (w w' : world) (l : loc) :
  newProcess name opts w = Some ((Some l, None), w') ->
  let pid := mkPid (core_nodename (w_core w)) (uint64 (core_nextPID (w_core w) + 1))
               (core_creation (w_core w)) in
  core_nodename (w_core w') = core_nodename (w_core w)
  ∧ core_creation (w_core w') = core_creation (w_core w)
  ∧ core_processes (w_core w') = <[PidID pid := l]> (core_processes (w_core w))
  ∧ (name ≠ "" -> core_names (w_core w') = <[name := pid]> (core_names (w_core w))).
Proof.
  unfold newProcess. intros H.
  destruct (opt_Context opts) as [uc|]; go_simpl;
    rewrite lookup_insert_eq in H; simpl in H;
    repeat case_decide; simpl in H; inversion H; subst; clear H; simpl;
    repeat split; done.
Qed.

(** X26: a process spawned under a name is reached by that name: right
    after a successful [newProcess] with a non-empty name, a send from a pid
    of this node to the name on this node returns nil and its message is the
    one message in the new process's mailbox. *)
Theorem spawn_then_send_by_name (name : string) (opts : processOptions) (w w1 : world)
    (l : loc) (from : Pid) (message : Term) :
  name ≠ "" ->
  newProcess name opts w = Some ((Some l, None), w1) ->
  PidNode from = core_nodename (w_core w) ->
  ∃ w2 pr2, RouteSendReg from (mkProcessID name (core_nodename (w_core w))) message w1
            = Some (None, w2)
    ∧ w_heap w2 !! l = Some pr2
    ∧ proc_name pr2 = name
    ∧ (chan_buf <$> proc_mailBox pr2) = Some [(from, message)]
    ∧ w_core w2 = w_core w1.
Proof.
  intros Hname Hnew Hfrom.
  destruct (newProcess_object name opts w w1 l Hnew) as (Hl & Hdone & Hheap & Hn).
  destruct (newProcess_core name opts w w1 l Hnew) as (Hnode & Hcr & Hproc & Hnames).
  specialize (Hnames Hname).
  match type of Hheap with _ = <[_ := ?q]> _ => set (pr := q) in * end.
  unfold RouteSendReg. go_unfold. cbn [ProcessIDNode ProcessIDName].
  rewrite Hnode, decide_False by (intros Hne; by apply Hne).
  rewrite decide_True by reflexivity. rewrite Hnames, lookup_insert_eq.
  unfold RouteSend. go_unfold. cbn [PidNode PidCreation PidID].
  rewrite Hnode, Hcr, decide_False by (intros Hne; by apply Hne).
  rewrite decide_True by reflexivity.
  rewrite decide_False by (intros Hne; by apply Hne).
  rewrite Hproc. cbn [PidID]. rewrite lookup_insert_eq, Hheap, lookup_insert_eq.
  subst pr. cbn [proc_mailBox]. unfold make_chan.
  rewrite chan_try_send_room by (simpl; lia).
  eexists _, _. split; [reflexivity|]. proj_simpl. rewrite lookup_insert_eq.
  split; [reflexivity|]. repeat split.
Qed.

Lemma spawn_then_send_by_name_witness :
  ∃ w1 w2 pr2, newProcess "db" ex_opts ex_two = Some ((Some 2%nat, None), w1)
    ∧ RouteSendReg ex_pidP (mkProcessID "db" "node@host") (TermInt 7) w1 = Some (None, w2)
    ∧ w_heap w2 !! 2%nat = Some pr2
    ∧ (chan_buf <$> proc_mailBox pr2) = Some [(ex_pidP, TermInt 7)].
Proof.
  assert (Hnew : ∃ w1, newProcess "db" ex_opts ex_two = Some ((Some 2%nat, None), w1)).
  { eexists. vm_compute. reflexivity. }
  destruct Hnew as (w1 & Hnew).
  destruct (spawn_then_send_by_name "db" ex_opts ex_two w1 2%nat ex_pidP (TermInt 7))
    as (w2 & pr2 & H1 & H2 & _ & H4 & _);
    [discriminate | exact Hnew | reflexivity |].
  exists w1, w2, pr2. repeat split; auto.
Defined.

(** ** The registry invariant *)

(** X16: every entry of the alias table points at an allocated process
    object that lists the alias, and the allocated objects lie below the next
    free location: this holds on a fresh core and is kept by every operation
    of the registry and of the router. *)
Theorem registry_inv_kept (w w' : world) :
  registry_inv w ->
  (∀ name opts r, newProcess name opts w = Some (r, w') -> registry_inv w')
  ∧ (∀ p r, newAlias p w = Some (r, w') -> registry_inv w')
  ∧ (∀ owner alias r, deleteAlias owner alias w = Some (r, w') -> registry_inv w')
  ∧ (∀ pid, deleteProcess pid w = Some (tt, w') -> registry_inv w')
  ∧ (∀ name pid r, registerName name pid w = Some (r, w') -> registry_inv w')
  ∧ (∀ name r, unregisterName name w = Some (r, w') -> registry_inv w')
  ∧ (∀ from to m r, RouteSend from to m w = Some (r, w') -> registry_inv w')
  ∧ (∀ from to m r, RouteSendReg from to m w = Some (r, w') -> registry_inv w')
  ∧ (∀ from to m r, RouteSendAlias from to m w = Some (r, w') -> registry_inv w')
  ∧ (∀ cl from reason r, process_exit cl from reason w = Some (r, w') -> registry_inv w')
  ∧ (∀ ctx nodename Creation now newNetwork done k w0,
       newCore ctx nodename Creation now newNetwork done k = inl w0 -> registry_inv w0).
Proof.
  intros Hinv. repeat match goal with |- _ ∧ _ => split end; intros.
  - by eapply newProcess_inv.
  - by eapply newAlias_inv.
  - by eapply deleteAlias_inv.
  - by eapply deleteProcess_inv.
  - by eapply registerName_inv.
  - by eapply unregisterName_inv.
  - by eapply RouteSend_inv.
  - by eapply RouteSendReg_inv.
  - by eapply RouteSendAlias_inv.
  - by eapply process_exit_inv.
  - by eapply newCore_inv.
Qed.

Lemma registry_inv_kept_witness :
  registry_inv ex_two_alias ∧ registry_inv ex_P_reaped.
Proof.
  assert (Hinv : registry_inv ex_two_alias).
  { split; [apply (bool_decide_unpack _); vm_compute; exact I|].
    unfold heap_bounded. apply (bool_decide_unpack _). vm_compute. exact I. }
  split; [exact Hinv|].
  destruct (registry_inv_kept ex_two_alias ex_P_reaped Hinv) as (_ & _ & _ & Hdel & _).
  apply (Hdel ex_pidP). vm_compute. reflexivity.
Defined.

(** ** Registered behaviors *)

Lemma RegisteredBehavior_found (group name : string) (bs : behaviors)
    (rb : gen_RegisteredBehavior) :
  RegisteredBehavior group name bs = (rb, None)
  <-> ∃ g, bs !! group = Some g ∧ g !! name = Some rb.
Proof.
  unfold RegisteredBehavior. destruct (bs !! group) as [g|]; [|split].
  - destruct (g !! name) as [rb'|] eqn:Hn; split.
    + intros [= ->]. eauto.
    + intros (g' & [= <-] & Hrb). congruence.
    + discriminate.
    + intros (g' & [= <-] & Hrb). congruence.
  - discriminate.
  - by intros (g & ? & _).
Qed.

(** X17: [RegisterBehavior] refuses a pair (group, name) that is already
    registered with [ErrTaken] and changes nothing; otherwise it returns nil
    and the pair is found afterwards with the behavior and data given, while
    every other pair is found exactly when it was found before, with the same
    value (a group that did not exist is created on the way). *)
Theorem RegisterBehavior_spec (group name : string) (behavior : option nat)
    (data : option Term) (bs : behaviors) :
  (∀ rb, RegisteredBehavior group name bs = (rb, None) ->
         RegisterBehavior group name behavior data bs = (bs, Some ErrTaken))
  ∧ ((RegisteredBehavior group name bs).2 ≠ None ->
     ∃ bs', RegisterBehavior group name behavior data bs = (bs', None)
       ∧ RegisteredBehavior group name bs' = (mkRegistered behavior data, None)
       ∧ (∀ g n rb, g ≠ group ∨ n ≠ name ->
            RegisteredBehavior g n bs' = (rb, None)
            <-> RegisteredBehavior g n bs = (rb, None))).
Proof.
  split.
  - intros rb Hrb. apply RegisteredBehavior_found in Hrb as (g & Hg & Hn).
    unfold RegisterBehavior. by rewrite Hg; simpl; rewrite Hn.
  - intros Hnot.
    assert (Hfree : ∀ g, bs !! group = Some g -> g !! name = None).
    { intros g Hg. unfold RegisteredBehavior in Hnot. rewrite Hg in Hnot.
      destruct (g !! name); [done | reflexivity]. }
    unfold RegisterBehavior.
    destruct (bs !! group) as [g|] eqn:Hg; simpl.
    + rewrite (Hfree g eq_refl). eexists. split; [reflexivity|]. split.
      * apply RegisteredBehavior_found. eexists.
        split; [apply lookup_insert_eq | apply lookup_insert_eq].
      * intros g' n rb Hne. rewrite !RegisteredBehavior_found.
        destruct (decide (g' = group)) as [->|Hg'].
        -- rewrite lookup_insert_eq, Hg. destruct Hne as [|Hn]; [done|].
           split; intros (x & [= <-] & Hx); eexists; (split; [reflexivity|]).
           ++ by rewrite lookup_insert_ne in Hx.
           ++ by rewrite lookup_insert_ne.
        -- by rewrite lookup_insert_ne.
    + rewrite lookup_empty. eexists. split; [reflexivity|]. split.
      * apply RegisteredBehavior_found. eexists.
        split; [apply lookup_insert_eq | apply lookup_insert_eq].
      * intros g' n rb Hne. rewrite !RegisteredBehavior_found.
        destruct (decide (g' = group)) as [->|Hg'].
        -- rewrite lookup_insert_eq, Hg. destruct Hne as [|Hn]; [done|].
           split; [|by intros (x & ? & _)].
           intros (x & [= <-] & Hx). rewrite lookup_insert_ne in Hx by done.
           by rewrite lookup_empty in Hx.
        -- by rewrite !lookup_insert_ne.
Qed.

(** X18: [UnregisterBehavior] answers [ErrBehaviorUnknown] only when the
    group does not exist; for an existing group it returns nil whether or
    not the name was registered in it.  Afterwards the pair is not found, and
    every other pair is found exactly when it was found before, with the same
    value. *)
Theorem UnregisterBehavior_spec (group name : string) (bs : behaviors) :
  (bs !! group = None -> UnregisterBehavior group name bs = (bs, Some ErrBehaviorUnknown))
  ∧ (is_Some (bs !! group) ->
     ∃ bs', UnregisterBehavior group name bs = (bs', None)
       ∧ (RegisteredBehavior group name bs').2 ≠ None
       ∧ (∀ g n rb, g ≠ group ∨ n ≠ name ->
            RegisteredBehavior g n bs' = (rb, None)
            <-> RegisteredBehavior g n bs = (rb, None))).
Proof.
  split.
  - intros Hg. unfold UnregisterBehavior. by rewrite Hg.
  - intros [gb Hg]. unfold UnregisterBehavior. rewrite Hg. simpl.
    destruct (decide (size (delete name gb) = 0%nat)) as [Hsz|Hsz].
    + apply map_size_empty_iff in Hsz. eexists. split; [reflexivity|]. split.
      * unfold RegisteredBehavior. by rewrite lookup_delete_eq.
      * intros g' n rb Hne. rewrite !RegisteredBehavior_found.
        destruct (decide (g' = group)) as [->|Hg'].
        -- rewrite lookup_delete_eq, Hg. destruct Hne as [|Hn]; [done|].
           split; [by intros (x & ? & _)|].
           intros (x & [= <-] & Hx).
           assert (Hd : delete name gb !! n = Some rb) by by rewrite lookup_delete_ne.
           by rewrite Hsz, lookup_empty in Hd.
        -- by rewrite lookup_delete_ne.
    + eexists. split; [reflexivity|]. split.
      * unfold RegisteredBehavior. by rewrite lookup_insert_eq, lookup_delete_eq.
      * intros g' n rb Hne. rewrite !RegisteredBehavior_found.
        destruct (decide (g' = group)) as [->|Hg'].
        -- rewrite lookup_insert_eq, Hg. destruct Hne as [|Hn]; [done|].
           split; intros (x & [= <-] & Hx); eexists; (split; [reflexivity|]).
           ++ by rewrite lookup_delete_ne in Hx.
           ++ by rewrite lookup_delete_ne.
        -- by rewrite lookup_insert_ne.
Qed.

(** X19: no group of the table is ever empty: the empty table has none,
    and [RegisterBehavior] and [UnregisterBehavior] keep it so;
    consequently [RegisteredBehaviorGroup] returns the empty list exactly
    for the groups that do not exist. *)
Theorem no_empty_group_kept (bs : behaviors) :
  no_empty_group bs ->
  (∀ group name behavior data,
     no_empty_group (RegisterBehavior group name behavior data bs).1)
  ∧ (∀ group name, no_empty_group (UnregisterBehavior group name bs).1)
  ∧ (∀ group, RegisteredBehaviorGroup group bs = [] <-> bs !! group = None)
  ∧ no_empty_group ∅.
Proof.
  intros Hinv. repeat split.
  - intros group name behavior data. unfold RegisterBehavior.
    destruct (bs !! group) as [g|] eqn:Hg; simpl.
    + destruct (g !! name); simpl; [exact Hinv|].
      apply map_Forall_insert_2; [apply insert_non_empty | exact Hinv].
    + rewrite lookup_empty. simpl. rewrite insert_insert_eq.
      apply map_Forall_insert_2; [apply insert_non_empty | exact Hinv].
  - intros group name. unfold UnregisterBehavior.
    destruct (bs !! group) as [g|] eqn:Hg; simpl; [|exact Hinv].
    case_decide as Hsz; simpl.
    + by apply map_Forall_delete.
    + apply map_Forall_insert_2; [|exact Hinv].
      by apply map_size_non_empty_iff.
  - unfold RegisteredBehaviorGroup. destruct (bs !! group) as [g|] eqn:Hg; [|done].
    intros Hnil. apply fmap_nil_inv, map_to_list_empty_iff in Hnil.
    by apply Hinv in Hg.
  - unfold RegisteredBehaviorGroup. by intros ->.
  - apply map_Forall_empty.
Qed.

Lemma no_empty_group_kept_witness :
  no_empty_group (RegisterBehavior "remote" "worker" (Some 1%nat) None ∅).1
  ∧ no_empty_group
      (UnregisterBehavior "remote" "worker"
         (RegisterBehavior "remote" "worker" (Some 1%nat) None ∅).1).1.
Proof.
  destruct (no_empty_group_kept ∅ (map_Forall_empty _)) as (Hreg & _).
  split; [apply Hreg|].
  destruct (no_empty_group_kept _ (Hreg "remote" "worker" (Some 1%nat) None))
    as (_ & Hun & _).
  apply Hun.
Defined.

(** X20: registering a pair that is not yet registered and unregistering it
    again gives back the table as it was, the group included when the
    registration had created it (on a table without empty groups). *)
Theorem RegisterBehavior_UnregisterBehavior (group name : string) (behavior : option nat)
    (data : option Term) (bs : behaviors) :
  no_empty_group bs ->
  (RegisteredBehavior group name bs).2 ≠ None ->
  UnregisterBehavior group name (RegisterBehavior group name behavior data bs).1
  = (bs, None).
Proof.
  intros Hinv Hnot. unfold RegisterBehavior.
  destruct (bs !! group) as [g|] eqn:Hg; simpl.
  - assert (Hn : g !! name = None).
    { unfold RegisteredBehavior in Hnot. rewrite Hg in Hnot.
      destruct (g !! name); [done | reflexivity]. }
    rewrite Hn. simpl. unfold UnregisterBehavior. rewrite lookup_insert_eq. simpl.
    rewrite delete_insert_id by exact Hn.
    rewrite decide_False by (apply map_size_non_empty_iff; by apply Hinv in Hg).
    by rewrite insert_insert_eq, insert_id.
  - rewrite lookup_empty. simpl. unfold UnregisterBehavior.
    rewrite lookup_insert_eq. simpl. rewrite delete_insert_id by apply lookup_empty.
    rewrite decide_True by apply map_size_empty.
    by rewrite insert_insert_eq, delete_insert_id.
Qed.

Lemma RegisterBehavior_UnregisterBehavior_witness :
  UnregisterBehavior "remote" "worker"
    (RegisterBehavior "remote" "worker" (Some 1%nat) None ∅).1
  = (∅, None).
Proof.
  apply RegisterBehavior_UnregisterBehavior; [apply map_Forall_empty|].
  vm_compute. discriminate.
Defined.

(** X21: [RegisteredBehaviorGroup] lists the behaviors of the group, one
    entry per registered name: a value is in the list exactly when some name
    of the group is found with it. *)
Theorem RegisteredBehaviorGroup_spec (group : string) (bs : behaviors) :
  (∀ rb, rb ∈ RegisteredBehaviorGroup group bs
         <-> ∃ name, RegisteredBehavior group name bs = (rb, None))
  ∧ length (RegisteredBehaviorGroup group bs) = size (default ∅ (bs !! group)).
Proof.
  unfold RegisteredBehaviorGroup. split.
  - intros rb. setoid_rewrite RegisteredBehavior_found.
    destruct (bs !! group) as [g|]; simpl.
    + rewrite list_elem_of_fmap. split.
      * intros ([n rb'] & -> & Hin). exists n, g. split; [done|].
        by apply elem_of_map_to_list.
      * intros (n & g' & [= <-] & Hn). exists (n, rb). split; [done|].
        by apply elem_of_map_to_list.
    + split; [by intros ?%elem_of_nil | by intros (n & g & ? & _)].
  - destruct (bs !! group) as [g|]; simpl.
    + by rewrite length_fmap, length_map_to_list.
    + by rewrite map_size_empty.
Qed.

(** ** The EPMD resolver *)

Lemma Uint16_of_bytes (b0 b1 : Z) : 0 <= b1 < 256 -> Uint16_of b0 b1 = 256 * b0 + b1.
Proof.
  intros Hb1. unfold Uint16_of.
  assert (Hland : Z.land b1 (Z.shiftl b0 8) = 0).
  { apply Z.bits_inj'. intros n Hn. rewrite Z.land_spec, Z.bits_0.
    destruct (decide (n < 8)) as [Hlt|Hge].
    - rewrite (Z.shiftl_spec_low b0 8 n) by lia. apply andb_false_r.
    - replace b1 with (b1 mod 2 ^ 8) by (apply Z.mod_small; lia).
      rewrite Z.mod_pow2_bits_high by lia. reflexivity. }
  rewrite <- Z.lxor_lor, <- Z.add_nocarry_lxor by exact Hland.
  rewrite Z.shiftl_mul_pow2 by lia. lia.
Qed.

Lemma Uint16_of_split (v : Z) :
  0 <= v < 65536 -> Uint16_of (byte (Z.shiftr v 8)) (byte v) = v.
Proof.
  intros Hv. unfold byte. rewrite Z.shiftr_div_pow2 by lia.
  change (2 ^ 8) with 256.
  rewrite Uint16_of_bytes by (apply Z.mod_pos_bound; lia).
  rewrite (Z.mod_small (v / 256)); [|split; [apply Z.div_pos; lia|]].
  - symmetry. apply Z.div_mod. lia.
  - apply Z.div_lt_upper_bound; lia.
Qed.

Lemma length_bytes_of_string (s : string) :
  length (bytes_of_string s) = String.length s.
Proof.
  unfold bytes_of_string. rewrite length_fmap.
  induction s as [|c s IH]; simpl; [reflexivity | by rewrite IH].
Qed.

(** X22: for a name of at most 65532 bytes the request is the two-byte
    big-endian count of the bytes that follow, the request code, and the
    bytes of the name; for a name of 65533 to 65535 bytes the 16-bit length
    wraps below 3 and the function panics on its slice or index expression. *)
Theorem compose_PORT_PLEASE2_REQ_frame (REQ : Z) (name : string) :
  (Z.of_nat (String.length name) <= 65532 ->
     ∃ hi lo, compose_PORT_PLEASE2_REQ REQ name
              = Some ([hi; lo; byte REQ] ++ bytes_of_string name)
       ∧ 0 <= hi < 256 ∧ 0 <= lo < 256
       ∧ Uint16_of hi lo = Z.of_nat (length (byte REQ :: bytes_of_string name)))
  ∧ (65533 <= Z.of_nat (String.length name) <= 65535 ->
     compose_PORT_PLEASE2_REQ REQ name = None).
Proof.
  split.
  - intros Hlen. unfold compose_PORT_PLEASE2_REQ.
    assert (Hrl : uint16 (2 + Z.of_nat (String.length name) + 1)
                  = Z.of_nat (S (S (S (String.length name))))).
    { unfold uint16. rewrite Z.mod_small; [lia|].
      change (2 ^ 16) with 65536. lia. }
    rewrite Hrl, Nat2Z.id. cbn [replicate]. cbn [length].
    rewrite decide_False by lia.
    unfold PutUint16_at. cbn [insert list_insert length].
    rewrite decide_False by lia. cbn [insert list_insert take drop app].
    unfold copy_into. rewrite take_0, !drop_0, length_replicate. cbn [app].
    pose proof (length_bytes_of_string name) as Hbytes.
    rewrite (take_ge (bytes_of_string name) (String.length name)) by (rewrite Hbytes; done).
    rewrite Hbytes.
    rewrite (drop_ge (replicate (String.length name) 0) (String.length name))
      by (rewrite length_replicate; done).
    rewrite app_nil_r. eexists _, _. split; [reflexivity|].
    unfold byte at 1 2 3 4. change (2 ^ 8) with 256.
    split; [apply Z.mod_pos_bound; lia|]. split; [apply Z.mod_pos_bound; lia|].
    assert (Hv : uint16 (Z.of_nat (S (S (S (String.length name)))) - 2)
                 = Z.of_nat (String.length name) + 1).
    { unfold uint16. rewrite Z.mod_small; [lia|]. change (2 ^ 16) with 65536. lia. }
    rewrite Hv. fold (byte (Z.shiftr (Z.of_nat (String.length name) + 1) 8)).
    fold (byte (Z.of_nat (String.length name) + 1)).
    rewrite Uint16_of_split by lia. lia.
  - intros Hlen. unfold compose_PORT_PLEASE2_REQ.
    assert (Hrl : ∃ k, (k <= 2)%nat ∧
                       Z.to_nat (uint16 (2 + Z.of_nat (String.length name) + 1)) = k).
    { exists (Z.to_nat (Z.of_nat (String.length name) - 65533)). split; [lia|].
      unfold uint16.
      replace (2 + Z.of_nat (String.length name) + 1)
        with (Z.of_nat (String.length name) - 65533 + 1 * 2 ^ 16)
        by (change (2 ^ 16) with 65536; lia).
      rewrite Z.mod_add by (change (2 ^ 16) with 65536; lia).
      rewrite Z.mod_small by (change (2 ^ 16) with 65536; lia). reflexivity. }
    destruct Hrl as (k & Hk & ->).
    case_decide as H1; [reflexivity|].
    rewrite decide_True; [reflexivity|].
    unfold PutUint16_at. rewrite !length_insert, length_replicate. lia.
Qed.

Lemma Forall_copy_into (P : Z -> Prop) (dst src : list Z) :
  Forall P dst -> Forall P src -> Forall P (copy_into dst src).
Proof.
  intros Hd Hs. unfold copy_into. apply Forall_app.
  split; [by apply Forall_take | by apply Forall_drop].
Qed.

Lemma nth_byte (l : list Z) (i : nat) :
  Forall (fun b => 0 <= b < 256) l -> 0 <= nth i l 0 < 256.
Proof.
  intros Hl. destruct (nth_in_or_default i l 0) as [Hin | ->]; [|lia].
  rewrite Forall_forall in Hl. apply Hl. by apply list_elem_of_In.
Qed.

(** X23: [resolvePort] returns a nil error only with a port between 0 and
    65535, read big-endian from bytes 2 and 3 of a reply whose byte 0 is the
    response code and whose byte 1 is 0, and only for a name of the form
    [node@host]; with every error it returns the port 0 or -1. *)
Theorem resolvePort_result (REQ RESP : Z) (nw : net) (name : string) (e : epmdResolver)
    (p : Z) (err : option resolver_error) :
  Forall (fun b => 0 <= b < 256) (conn_Read nw).1 ->
  resolvePort REQ RESP nw name e = Some (p, err) ->
  let buf := copy_into (replicate 1024 0) (conn_Read nw).1 in
  (err = None ->
     0 <= p < 65536 ∧ p = 256 * nth 2 buf 0 + nth 3 buf 0
     ∧ nth 0 buf 0 = RESP ∧ nth 1 buf 0 = 0
     ∧ length (Split_at name) = 2%nat)
  ∧ (err ≠ None -> p = 0 ∨ p = -1).
Proof.
  intros Hdata Hrun buf.
  assert (Hbuf : Forall (fun b => 0 <= b < 256) buf).
  { apply Forall_copy_into; [|exact Hdata].
    apply Forall_replicate. lia. }
  assert (Hok : 0 <= Uint16_of (nth 2 buf 0) (nth 3 buf 0) < 65536
                ∧ Uint16_of (nth 2 buf 0) (nth 3 buf 0) = 256 * nth 2 buf 0 + nth 3 buf 0).
  { pose proof (nth_byte buf 2 Hbuf). pose proof (nth_byte buf 3 Hbuf).
    rewrite Uint16_of_bytes by done. lia. }
  unfold resolvePort in Hrun. fold buf in Hrun.
  destruct (decide (length (Split_at name) ≠ 2%nat)) as [Hns|Hns];
    [injection Hrun as <- <-; split; [done | auto]|].
  apply dec_stable in Hns.
  destruct (net_Dial nw _ _); [injection Hrun as <- <-; split; [done | auto]|].
  destruct (compose_PORT_PLEASE2_REQ REQ _); [|discriminate].
  destruct (conn_Write nw _); [injection Hrun as <- <-; split; [done | auto]|].
  destruct (conn_Read nw).2 as [rerr|].
  - destruct (decide (rerr ≠ io_EOF)); [injection Hrun as <- <-; split; [done | auto]|].
    destruct (decide (nth 0 buf 0 = RESP ∧ nth 1 buf 0 = 0)) as [[H0 H1]|];
      [injection Hrun as <- <-; split; [intros _; intuition | done]|].
    destruct (decide (0 < nth 1 buf 0)); injection Hrun as <- <-; split; done || auto.
  - destruct (decide (nth 0 buf 0 = RESP ∧ nth 1 buf 0 = 0)) as [[H0 H1]|];
      [injection Hrun as <- <-; split; [intros _; intuition | done]|].
    destruct (decide (0 < nth 1 buf 0)); injection Hrun as <- <-; split; done || auto.
Qed.

Lemma resolvePort_result_witness :
  resolvePort 122 119
    (mkNet (fun _ => None) (fun _ _ => None) (fun _ => None) ([119; 0; 1; 2], Some io_EOF))
    "node@host" (mkResolver 4369 false ∅)
  = Some (258, None)
  ∧ 0 <= 258 < 65536.
Proof.
  assert (Hrun : resolvePort 122 119
    (mkNet (fun _ => None) (fun _ _ => None) (fun _ => None) ([119; 0; 1; 2], Some io_EOF))
    "node@host" (mkResolver 4369 false ∅) = Some (258, None)) by (vm_compute; reflexivity).
  split; [exact Hrun|].
  refine (proj1 (proj1 (resolvePort_result 122 119 _ "node@host" _ 258 None _ Hrun) eq_refl)).
  simpl. repeat constructor; lia.
Defined.

(** X24: when [addStaticRoute] succeeds the name was free and is now bound
    to the route given.  With a port above 0 [resolve] returns that route
    without asking the network; with port 0 it asks EPMD for the port and
    keeps the cookie and TLS flag of the stored route.  A further
    [addStaticRoute] for the name fails and changes nothing, and in
    static-only mode every stored route keeps carrying a port. *)
Theorem addStaticRoute_resolve (REQ RESP : Z) (nw : net) (name : string) (port : Z)
    (cookie : string) (tls : bool) (e e' : epmdResolver) :
  0 <= port < 65536 ->
  addStaticRoute nw name port cookie tls e = (e', None) ->
  e_staticRoutes e !! name = None
  ∧ e_staticRoutes e' = <[name := mkNetworkRoute port cookie tls]> (e_staticRoutes e)
  ∧ (0 < port -> ∀ nw', resolve REQ RESP nw' name e'
                        = Some (mkNetworkRoute port cookie tls, None))
  ∧ (port = 0 -> ∀ nw' p, resolvePort REQ RESP nw' name e' = Some (p, None) ->
                          resolve REQ RESP nw' name e'
                          = Some (mkNetworkRoute p cookie tls, None))
  ∧ (∀ nw' port' cookie' tls',
       ∃ err, addStaticRoute nw' name port' cookie' tls' e' = (e', Some err))
  ∧ (static_ports e -> static_ports e').
Proof.
  intros Hport. unfold addStaticRoute.
  set (ns := if decide (length (Split_at name) = 1%nat)
             then Split_at name ++ ["localhost"] else Split_at name).
  destruct (decide (length ns ≠ 2%nat)) as [|Hns]; [discriminate|].
  destruct (net_LookupHost nw (nth 1 ns "")); [discriminate|].
  destruct (e_staticOnly e && bool_decide (port = 0)) eqn:Hso; [discriminate|].
  destruct (e_staticRoutes e !! name) eqn:Hfree; [discriminate|].
  intros [= <-]. cbn [e_staticRoutes e_staticOnly e_Port].
  split; [reflexivity|]. split; [reflexivity|]. split; [|split; [|split]].
  - intros Hpos nw'. unfold resolve. cbn [e_staticRoutes].
    rewrite lookup_insert_eq. cbn [default nr_Port].
    rewrite bool_decide_eq_true_2 by eauto.
    by rewrite bool_decide_eq_true_2 by done.
  - intros -> nw' p Hp. unfold resolve. cbn [e_staticRoutes e_staticOnly].
    rewrite lookup_insert_eq. cbn [default nr_Port nr_Cookie nr_TLS].
    rewrite (bool_decide_eq_false_2 (0 < 0)) by lia. rewrite andb_false_r.
    rewrite bool_decide_eq_true_2 in Hso by done. rewrite andb_true_r in Hso.
    rewrite Hso in Hp |- *. by rewrite Hp.
  - intros nw' port' cookie' tls'.
    destruct (net_LookupHost nw' (nth 1 ns "")); [eauto|].
    destruct (e_staticOnly e && bool_decide (port' = 0)); [eauto|].
    rewrite lookup_insert_eq. eauto.
  - intros Hinv Hstatic. cbn [e_staticOnly] in Hstatic.
    apply map_Forall_insert_2; [|by apply Hinv].
    cbn [nr_Port]. rewrite Hstatic in Hso. simpl in Hso.
    apply bool_decide_eq_false in Hso. lia.
Qed.

Lemma addStaticRoute_resolve_witness :
  ∃ e', addStaticRoute (mkNet (fun _ => None) (fun _ _ => Some (net_error 1))
                          (fun _ => None) ([], None))
          "peer@host" 25001 "secret" true (mkResolver 4369 true ∅) = (e', None)
    ∧ resolve 122 119 (mkNet (fun _ => None) (fun _ _ => Some (net_error 1))
                         (fun _ => None) ([], None)) "peer@host" e'
      = Some (mkNetworkRoute 25001 "secret" true, None).
Proof.
  eexists. split; [vm_compute; reflexivity|].
  refine (proj1 (proj2 (proj2 (addStaticRoute_resolve 122 119
            (mkNet (fun _ => None) (fun _ _ => Some (net_error 1)) (fun _ => None) ([], None))
            "peer@host" 25001 "secret" true (mkResolver 4369 true ∅) _ _ _))) _ _);
    [lia | vm_compute; reflexivity | lia].
Defined.

(** X25: in static-only mode [resolve] never asks the network: it returns
    the stored route of the name, or the error "Can't resolve" when there is
    none; after [removeStaticRoute] the name is not resolved any more, and
    the stored routes keep carrying a port. *)
Theorem resolve_static_only (REQ RESP : Z) (nw : net) (name : string) (e : epmdResolver) :
  e_staticOnly e = true ->
  static_ports e ->
  resolve REQ RESP nw name e
  = match e_staticRoutes e !! name with
    | Some r => Some (r, None)
    | None => Some (mkNetworkRoute 0 "" false, Some (Errorf ("Can't resolve " ++ name)))
    end
  ∧ resolve REQ RESP nw name (removeStaticRoute name e)
    = Some (mkNetworkRoute 0 "" false, Some (Errorf ("Can't resolve " ++ name)))
  ∧ (∀ other, other ≠ name ->
       resolve REQ RESP nw other (removeStaticRoute name e) = resolve REQ RESP nw other e)
  ∧ static_ports (removeStaticRoute name e).
Proof.
  intros Hstatic Hinv. specialize (Hinv Hstatic).
  split; [|split; [|split]].
  - unfold resolve. rewrite Hstatic.
    destruct (e_staticRoutes e !! name) as [r|] eqn:Hr; cbn [default].
    + rewrite bool_decide_eq_true_2 by eauto.
      rewrite bool_decide_eq_true_2 by (by apply Hinv in Hr). reflexivity.
    + rewrite bool_decide_eq_false_2 by (by intros [? ?]). reflexivity.
  - unfold resolve, removeStaticRoute. cbn [e_staticRoutes e_staticOnly].
    rewrite lookup_delete_eq, Hstatic. cbn [default].
    rewrite bool_decide_eq_false_2 by (by intros [? ?]). reflexivity.
  - intros other Hne. unfold resolve, removeStaticRoute.
    cbn [e_staticRoutes e_staticOnly]. rewrite lookup_delete_ne by done.
    by rewrite Hstatic.
  - intros _. unfold removeStaticRoute. cbn [e_staticRoutes].
    by apply map_Forall_delete.
Qed.

Lemma resolve_static_only_witness :
  resolve 122 119 (mkNet (fun _ => None) (fun _ _ => None) (fun _ => None) ([], None))
    "peer@host" (mkResolver 4369 true ∅)
  = Some (mkNetworkRoute 0 "" false, Some (Errorf "Can't resolve peer@host")).
Proof.
  refine (proj1 (resolve_static_only 122 119 _ "peer@host" (mkResolver 4369 true ∅) _ _)).
  - reflexivity.
  - intros _. apply map_Forall_empty.
Defined.
